(** * mcpr: the configuration store, the format adapters and the resync loop

    A shallow embedding of the Go packages [config], [clients] and [cmd] of
    jrandolf/mcpr, and the properties of its specification stated over it.

    Conventions of the embedding.
    - A Go string is a [string] (a sequence of bytes).  Server records are
      taken to hold text that encoding/json carries unchanged (valid UTF-8).
    - A Go slice is [slice A]: [None] is the nil slice, [Some l] a non-nil
      slice with elements [l].  A Go [map[string]string] is [strmap], with
      [None] the nil map.  [len] is 0 on both nil and empty.
    - A Go call returning [(A, error)] is a [Res A]; a runtime panic is the
      third outcome [Panic].
    - The machine (home directory, working directory, files) is a [World]
      threaded through every function that touches it.
    - encoding/json is modelled on values: a JSON file on disk is the value
      its bytes denote ([Doc v]) or text that does not parse ([Malformed]).
      [json.MarshalIndent] sorts object keys, so the bytes it writes are a
      function of the value: two files written by the program are
      byte-identical when they hold the same [Doc]. *)

From stdpp Require Import gmap strings list fin_maps sorting.
From Stdlib Require Import Ascii.

Set Warnings "-register-all".

(** ** Go values *)

Definition slice (A : Type) : Type := option (list A).

Definition elems {A} (s : slice A) : list A :=
  match s with None => [] | Some l => l end.

Definition len {A} (s : slice A) : nat := length (elems s).

(** [append(s, x)]: the result is never nil. *)
Definition append {A} (s : slice A) (x : A) : slice A := Some (elems s ++ [x]).

Definition strmap : Type := option (gmap string string).

Definition entries (m : strmap) : gmap string string :=
  match m with None => ∅ | Some g => g end.

Definition maplen (m : strmap) : nat := size (entries m).

(** ** Errors

    The Go code builds its errors with [fmt.Errorf]; one constructor stands
    for each message. *)

Inductive error : Type :=
| ErrServerExists (name : string)     (* "server %q already exists" *)
| ErrServerNotFound (name : string)   (* "server %q not found" *)
| ErrHomeDir                          (* "failed to get home directory: %w" *)
| ErrReadConfig                       (* "failed to read config: %w" *)
| ErrParseConfig                      (* "failed to parse config: %w" *)
| ErrCreateDir                        (* "failed to create config directory: %w" *)
| ErrWriteConfig                      (* "failed to write config: %w" *)
| ErrOS                               (* an os error returned as it is *)
| ErrUnknownClient (name : string)    (* "unknown client: %s" *)
| ErrNoLocal (display : string)       (* "%s does not support local config" *)
| ErrUnsupportedOS (goos : string).   (* "unsupported operating system: %s" *)

(** The error taxonomy of the specification, and where each message falls. *)
Inductive ErrorKind : Type :=
| NotFound | AlreadyExists | UnsupportedOperation | ParseError | IOError.

Definition kind (e : error) : ErrorKind :=
  match e with
  | ErrServerExists _ => AlreadyExists
  | ErrServerNotFound _ => NotFound
  | ErrUnknownClient _ => NotFound
  | ErrNoLocal _ => UnsupportedOperation
  | ErrParseConfig => ParseError
  | ErrHomeDir | ErrReadConfig | ErrCreateDir | ErrWriteConfig | ErrOS
  | ErrUnsupportedOS _ => IOError
  end.

Inductive Res (A : Type) : Type :=
| Ok (a : A)
| Err (e : error)
| Panic.
Arguments Ok {A} a.
Arguments Err {A} e.
Arguments Panic {A}.

Definition bind {A B} (r : Res A) (k : A → Res B) : Res B :=
  match r with
  | Ok a => k a
  | Err e => Err e
  | Panic => Panic
  end.

Notation "'do' x <- r ; k" := (bind r (fun x => k))
  (at level 10, x name, r at level 100, k at level 200).

(** ** package config: the data model *)

Module MCPServer.
Record t : Type := mk {
  Name : string;
  Type_ : string;          (* "stdio" or "http" *)
  Command : string;
  Args : slice string;
  Env : strmap;
  URL : string;
  Headers : strmap }.
End MCPServer.
Abbreviation MCPServer := MCPServer.t.

Module SyncedClient.
Record t : Type := mk {
  Name : string;
  Local : bool;
  Servers : slice string }.  (* specific servers synced (empty = all) *)
End SyncedClient.
Abbreviation SyncedClient := SyncedClient.t.

Module Config.
Record t : Type := mk {
  Servers : slice MCPServer;
  SyncedClients : slice SyncedClient;
  path : string }.
End Config.
Abbreviation Config := Config.t.

Definition withServers (c : Config) (s : slice MCPServer) : Config :=
  Config.mk s (Config.SyncedClients c) (Config.path c).

Definition withSyncedClients (c : Config) (s : slice SyncedClient) : Config :=
  Config.mk (Config.Servers c) s (Config.path c).

Definition SetPath (c : Config) (p : string) : Config :=
  Config.mk (Config.Servers c) (Config.SyncedClients c) p.

(** ** package config: servers *)

(** The loop of [AddServer]: does some record carry this name? *)
Fixpoint nameTaken (l : list MCPServer) (name : string) : bool :=
  match l with
  | [] => false
  | s :: rest => if String.eqb (MCPServer.Name s) name then true else nameTaken rest name
  end.

Definition AddServer (c : Config) (server : MCPServer) : Config * option error :=
  if nameTaken (elems (Config.Servers c)) (MCPServer.Name server)
  then (c, Some (ErrServerExists (MCPServer.Name server)))
  else (withServers c (append (Config.Servers c) server), None).

(** [append(c.Servers[:i], c.Servers[i+1:]...)] at the first match. *)
Fixpoint removeFirstServer (l : list MCPServer) (name : string) : option (list MCPServer) :=
  match l with
  | [] => None
  | s :: rest =>
      if String.eqb (MCPServer.Name s) name then Some rest
      else option_map (cons s) (removeFirstServer rest name)
  end.

Definition RemoveServer (c : Config) (name : string) : Config * option error :=
  match removeFirstServer (elems (Config.Servers c)) name with
  | Some l => (withServers c (Some l), None)
  | None => (c, Some (ErrServerNotFound name))
  end.

Fixpoint findServer (l : list MCPServer) (name : string) : option MCPServer :=
  match l with
  | [] => None
  | s :: rest => if String.eqb (MCPServer.Name s) name then Some s else findServer rest name
  end.

Definition GetServer (c : Config) (name : string) : Res MCPServer :=
  match findServer (elems (Config.Servers c)) name with
  | Some s => Ok s
  | None => Err (ErrServerNotFound name)
  end.

Definition ListServers (c : Config) : slice MCPServer := Config.Servers c.

(** ** package config: synced clients *)

Definition sameKey (sc : SyncedClient) (clientName : string) (local : bool) : bool :=
  String.eqb (SyncedClient.Name sc) clientName && Bool.eqb (SyncedClient.Local sc) local.

(** The loop of [AddSyncedClient]: [Some l'] when a record with the key was
    found and its [Servers] overwritten in place, [None] when the loop ran to
    the end. *)
Fixpoint updateSynced (l : list SyncedClient) (clientName : string) (local : bool)
    (servers : slice string) : option (list SyncedClient) :=
  match l with
  | [] => None
  | sc :: rest =>
      if sameKey sc clientName local
      then Some (SyncedClient.mk (SyncedClient.Name sc) (SyncedClient.Local sc) servers :: rest)
      else option_map (cons sc) (updateSynced rest clientName local servers)
  end.

Definition AddSyncedClient (c : Config) (clientName : string) (local : bool)
    (servers : slice string) : Config :=
  match updateSynced (elems (Config.SyncedClients c)) clientName local servers with
  | Some l => withSyncedClients c (Some l)
  | None =>
      withSyncedClients c
        (append (Config.SyncedClients c) (SyncedClient.mk clientName local servers))
  end.

Fixpoint removeFirstSynced (l : list SyncedClient) (clientName : string) (local : bool)
    : option (list SyncedClient) :=
  match l with
  | [] => None
  | sc :: rest =>
      if sameKey sc clientName local then Some rest
      else option_map (cons sc) (removeFirstSynced rest clientName local)
  end.

Definition RemoveSyncedClient (c : Config) (clientName : string) (local : bool) : Config :=
  match removeFirstSynced (elems (Config.SyncedClients c)) clientName local with
  | Some l => withSyncedClients c (Some l)
  | None => c
  end.

Definition GetSyncedClients (c : Config) : slice SyncedClient := Config.SyncedClients c.

Fixpoint findSynced (l : list SyncedClient) (clientName : string) (local : bool)
    : option SyncedClient :=
  match l with
  | [] => None
  | sc :: rest => if sameKey sc clientName local then Some sc else findSynced rest clientName local
  end.

Definition GetSyncedClient (c : Config) (clientName : string) (local : bool)
    : option SyncedClient :=
  findSynced (elems (Config.SyncedClients c)) clientName local.

(** The key of a synced-client record, and the keys of an aggregate. *)
Definition syncedKey (sc : SyncedClient) : string * bool :=
  (SyncedClient.Name sc, SyncedClient.Local sc).

Definition syncedKeys (c : Config) : list (string * bool) :=
  map syncedKey (elems (Config.SyncedClients c)).

Inductive SyncedOp : Type :=
| OpAddSynced (clientName : string) (local : bool) (servers : slice string)
| OpRemoveSynced (clientName : string) (local : bool).

Definition applySyncedOp (c : Config) (op : SyncedOp) : Config :=
  match op with
  | OpAddSynced n l s => AddSyncedClient c n l s
  | OpRemoveSynced n l => RemoveSyncedClient c n l
  end.

(** ** encoding/json, on values *)

(** A JSON value.  [JNum] carries the float64 a number literal denotes, as
    its bit pattern; objects are maps, as [map[string]any] is. *)
Inductive json : Type :=
| JNull
| JBool (b : bool)
| JNum (bits : Z)
| JStr (s : string)
| JArr (l : list json)
| JObj (m : gmap string json).

(** What the bytes of a JSON file denote. *)
Inductive jsonfile : Type :=
| Malformed            (* not a JSON text *)
| Doc (v : json).

(** ** The machine *)

Module World.
Record t : Type := mk {
  homeDir : option string;            (* os.UserHomeDir; None when it fails *)
  workDir : option (list string);     (* os.Getwd, as the components below the root *)
  goos : string;                      (* runtime.GOOS *)
  environ : gmap string string;       (* os.Getenv *)
  jsonFiles : gmap string jsonfile;   (* the files read as JSON *)
  textFiles : gmap string string;     (* the files read as text *)
  unreadable : gset string;           (* os.ReadFile fails, other than not-exist *)
  nomkdir : gset string;              (* os.MkdirAll(filepath.Dir(path)) fails *)
  nowrite : gset string }.            (* os.WriteFile fails *)
End World.
Abbreviation World := World.t.

Inductive ReadResult (A : Type) : Type :=
| ReadData (data : A)
| ReadNotExist          (* os.IsNotExist(err) *)
| ReadError.            (* any other error *)
Arguments ReadData {A} data.
Arguments ReadNotExist {A}.
Arguments ReadError {A}.

Definition ReadFileJSON (w : World) (p : string) : ReadResult jsonfile :=
  if decide (p ∈ World.unreadable w) then ReadError
  else match World.jsonFiles w !! p with
       | Some d => ReadData d
       | None => ReadNotExist
       end.

Definition ReadFileText (w : World) (p : string) : ReadResult string :=
  if decide (p ∈ World.unreadable w) then ReadError
  else match World.textFiles w !! p with
       | Some d => ReadData d
       | None => ReadNotExist
       end.

(** [os.MkdirAll(filepath.Dir(path), 0755)] succeeds. *)
Definition MkdirAllDir (w : World) (p : string) : bool :=
  bool_decide (p ∉ World.nomkdir w).

Definition canWrite (w : World) (p : string) : bool :=
  bool_decide (p ∉ World.nowrite w).

Definition putJSON (w : World) (p : string) (v : json) : World :=
  World.mk (World.homeDir w) (World.workDir w) (World.goos w) (World.environ w)
    (<[p := Doc v]> (World.jsonFiles w)) (World.textFiles w)
    (World.unreadable w) (World.nomkdir w) (World.nowrite w).

Definition putText (w : World) (p : string) (s : string) : World :=
  World.mk (World.homeDir w) (World.workDir w) (World.goos w) (World.environ w)
    (World.jsonFiles w) (<[p := s]> (World.textFiles w))
    (World.unreadable w) (World.nomkdir w) (World.nowrite w).

(** [os.Stat(p)] returns no error. *)
Definition Stat (w : World) (p : string) : bool :=
  bool_decide (is_Some (World.jsonFiles w !! p)) || bool_decide (is_Some (World.textFiles w !! p)).

Definition Getenv (w : World) (k : string) : string :=
  match World.environ w !! k with Some v => v | None => "" end.

(** [filepath.Join] of a directory given by its components and further
    elements. *)
Fixpoint joinPath (components : list string) : string :=
  match components with
  | [] => ""
  | c :: rest => "/" +:+ c +:+ joinPath rest
  end.

(** [filepath.Join(dir, elem...)] for a directory already in clean form. *)
Definition Join (dir : string) (elem : list string) : string := dir +:+ joinPath elem.

(** ** package config: paths *)

Definition configFileName : string := "mcpr.json".

(** The loop of [findConfigInParents], on the working directory with its
    components innermost first; the root is the empty list, where
    [filepath.Dir(dir) == dir]. *)
Fixpoint searchUp (w : World) (dirRev : list string) : option string :=
  let configPath := joinPath (rev dirRev ++ [configFileName]) in
  if Stat w configPath then Some configPath
  else match dirRev with
       | [] => None
       | _ :: parent => searchUp w parent
       end.

Definition findConfigInParents (w : World) : option string :=
  match World.workDir w with
  | None => None
  | Some dir => searchUp w (rev dir)
  end.

Definition getGlobalConfigPath (w : World) : Res string :=
  match World.homeDir w with
  | None => Err ErrHomeDir
  | Some home => Ok (Join home [".config"; "mcpr"; "config.json"])
  end.

Definition GetConfigPath (w : World) : Res string :=
  match findConfigInParents w with
  | Some p => Ok p
  | None => getGlobalConfigPath w
  end.

Definition GetWriteConfigPath (w : World) (preferLocal : bool) : Res string :=
  if preferLocal then
    match findConfigInParents w with
    | Some p => Ok p
    | None => Ok configFileName
    end
  else getGlobalConfigPath w.

(** ** package config: the central document

    [json.MarshalIndent(c, "", "  ")] follows the struct tags: a field tagged
    [omitempty] is left out when it is the empty string, or a slice or map of
    length 0 (nil or not). *)

Definition omitStr (k s : string) (m : gmap string json) : gmap string json :=
  if String.eqb s "" then m else <[k := JStr s]> m.

Definition encStrings (s : slice string) : json := JArr (JStr <$> elems s).

Definition omitStrings (k : string) (s : slice string) (m : gmap string json)
    : gmap string json :=
  if Nat.eqb (len s) 0 then m else <[k := encStrings s]> m.

Definition encStrMap (e : strmap) : json := JObj (JStr <$> entries e).

Definition omitStrMap (k : string) (e : strmap) (m : gmap string json)
    : gmap string json :=
  if Nat.eqb (maplen e) 0 then m else <[k := encStrMap e]> m.

Definition encServer (s : MCPServer) : json :=
  JObj (<["name" := JStr (MCPServer.Name s)]>
       (<["type" := JStr (MCPServer.Type_ s)]>
       (omitStr "command" (MCPServer.Command s)
       (omitStrings "args" (MCPServer.Args s)
       (omitStrMap "env" (MCPServer.Env s)
       (omitStr "url" (MCPServer.URL s)
       (omitStrMap "headers" (MCPServer.Headers s) ∅))))))).

Definition encSynced (sc : SyncedClient) : json :=
  JObj (<["name" := JStr (SyncedClient.Name sc)]>
       (<["local" := JBool (SyncedClient.Local sc)]>
       (omitStrings "servers" (SyncedClient.Servers sc) ∅))).

Definition encConfig (c : Config) : json :=
  JObj (<["servers" := match Config.Servers c with
                       | None => JNull
                       | Some l => JArr (encServer <$> l)
                       end]>
       (if Nat.eqb (len (Config.SyncedClients c)) 0 then ∅
        else {["synced_clients" := JArr (encSynced <$> elems (Config.SyncedClients c))]})).

(** [json.Unmarshal] into the structs: an absent key and [null] leave the
    field at its zero value, a value of another JSON type is an error.  Keys
    are matched as [Save] writes them. *)

Definition decString (o : option json) : option string :=
  match o with
  | None | Some JNull => Some ""
  | Some (JStr s) => Some s
  | Some _ => None
  end.

Definition decBool (o : option json) : option bool :=
  match o with
  | None | Some JNull => Some false
  | Some (JBool b) => Some b
  | Some _ => None
  end.

Definition decStrings (o : option json) : option (slice string) :=
  match o with
  | None | Some JNull => Some None
  | Some (JArr l) => Some <$> mapM (fun v => decString (Some v)) l
  | Some _ => None
  end.

Definition isStringOrNull (v : json) : bool :=
  match v with JStr _ | JNull => true | _ => false end.

Definition stringOf (v : json) : string :=
  match v with JStr s => s | _ => "" end.

Definition decStrMap (o : option json) : option strmap :=
  match o with
  | None | Some JNull => Some None
  | Some (JObj m) =>
      if bool_decide (map_Forall (fun _ v => isStringOrNull v = true) m)
      then Some (Some (stringOf <$> m)) else None
  | Some _ => None
  end.

Definition zeroServer : MCPServer := MCPServer.mk "" "" "" None None "" None.

Definition decServer (v : json) : option MCPServer :=
  match v with
  | JNull => Some zeroServer
  | JObj m =>
      name ← decString (m !! "name");
      type ← decString (m !! "type");
      command ← decString (m !! "command");
      args ← decStrings (m !! "args");
      env ← decStrMap (m !! "env");
      url ← decString (m !! "url");
      headers ← decStrMap (m !! "headers");
      Some (MCPServer.mk name type command args env url headers)
  | _ => None
  end.

Definition decSynced (v : json) : option SyncedClient :=
  match v with
  | JNull => Some (SyncedClient.mk "" false None)
  | JObj m =>
      name ← decString (m !! "name");
      local ← decBool (m !! "local");
      servers ← decStrings (m !! "servers");
      Some (SyncedClient.mk name local servers)
  | _ => None
  end.

Definition decSlice {A} (dec : json → option A) (o : option json) : option (slice A) :=
  match o with
  | None | Some JNull => Some None
  | Some (JArr l) => Some <$> mapM dec l
  | Some _ => None
  end.

(** [var cfg Config; json.Unmarshal(data, &cfg)]; the unexported [path]
    stays empty. *)
Definition decConfig (v : json) : option Config :=
  match v with
  | JNull => Some (Config.mk None None "")
  | JObj m =>
      servers ← decSlice decServer (m !! "servers");
      synced ← decSlice decSynced (m !! "synced_clients");
      Some (Config.mk servers synced "")
  | _ => None
  end.

Definition UnmarshalConfig (data : jsonfile) : option Config :=
  match data with
  | Malformed => None
  | Doc v => decConfig v
  end.

(** ** package config: Load and Save *)

Definition LoadFromPath (w : World) (path : string) : Res Config :=
  match ReadFileJSON w path with
  | ReadNotExist => Ok (Config.mk (Some []) None path)
  | ReadError => Err ErrReadConfig
  | ReadData data =>
      match UnmarshalConfig data with
      | None => Err ErrParseConfig
      | Some cfg => Ok (SetPath cfg path)
      end
  end.

Definition Load (w : World) : Res Config :=
  do path <- GetConfigPath w;
  match ReadFileJSON w path with
  | ReadNotExist =>
      (* globalPath, _ := getGlobalConfigPath() *)
      let globalPath := match getGlobalConfigPath w with Ok p => p | _ => "" end in
      Ok (Config.mk (Some []) None globalPath)
  | ReadError => Err ErrReadConfig
  | ReadData data =>
      match UnmarshalConfig data with
      | None => Err ErrParseConfig
      | Some cfg => Ok (SetPath cfg path)
      end
  end.

(** [Save] may bind the aggregate to the global path; it returns the
    aggregate as it leaves it, and the world or the error. *)
Definition Save (w : World) (c : Config) : Config * Res World :=
  match (if String.eqb (Config.path c) "" then getGlobalConfigPath w
         else Ok (Config.path c)) with
  | Err e => (c, Err e)
  | Panic => (c, Panic)
  | Ok p =>
      let c := SetPath c p in
      if negb (MkdirAllDir w p) then (c, Err ErrCreateDir)
      else if negb (canWrite w p) then (c, Err ErrWriteConfig)
      else (c, Ok (putJSON w p (encConfig c)))
  end.







(** ** package clients: the JSON adapters *)

(** [m[k] = v] when [c] holds. *)
Definition setIf (c : bool) (k : string) (v : json) (m : gmap string json)
    : gmap string json :=
  if c then <[k := v]> m else m.

Definition isHTTP (s : MCPServer) : bool := String.eqb (MCPServer.Type_ s) "http".

(** The loop [for _, server := range servers { mcpServers[server.Name] = entry }]. *)
Definition buildServers (entry : MCPServer → json) (servers : list MCPServer)
    : gmap string json :=
  fold_left (fun m s => <[MCPServer.Name s := entry s]> m) servers ∅.

(** The head of every merge adapter: [settings] after the file was read.
    [None] is the nil map that [json.Unmarshal] leaves when the file holds
    [null]. *)
Definition UnmarshalSettings (data : jsonfile) : option (option (gmap string json)) :=
  match data with
  | Doc (JObj m) => Some (Some m)
  | Doc JNull => Some None
  | Doc _ => None
  | Malformed => None
  end.

Definition readSettings (w : World) (path : string) : Res (option (gmap string json)) :=
  match ReadFileJSON w path with
  | ReadNotExist => Ok (Some ∅)
  | ReadError => Err ErrReadConfig
  | ReadData data =>
      match UnmarshalSettings data with
      | None => Err ErrParseConfig
      | Some settings => Ok settings
      end
  end.

(** [settings[key] = v]; an assignment to an entry of a nil map panics. *)
Definition setKey (settings : option (gmap string json)) (key : string) (v : json)
    : Res (gmap string json) :=
  match settings with
  | None => Panic
  | Some m => Ok (<[key := v]> m)
  end.

Definition saveSettingsFile (w : World) (path : string) (settings : gmap string json)
    : Res World :=
  if negb (MkdirAllDir w path) then Err ErrCreateDir
  else if negb (canWrite w path) then Err ErrOS
  else Ok (putJSON w path (JObj settings)).

(** The entry of [syncToSettingsWithKey] and of [syncToVSCodeMCP]. *)
Definition settingsEntry (server : MCPServer) : json :=
  if isHTTP server then
    JObj (setIf (0 <? maplen (MCPServer.Headers server)) "headers"
            (encStrMap (MCPServer.Headers server))
            {["url" := JStr (MCPServer.URL server)]})
  else
    JObj (setIf (0 <? maplen (MCPServer.Env server)) "env"
            (encStrMap (MCPServer.Env server))
         (setIf (0 <? len (MCPServer.Args server)) "args"
            (encStrings (MCPServer.Args server))
            {["command" := JStr (MCPServer.Command server)]})).

Definition syncToSettingsWithKey (servers : list MCPServer) (path key : string)
    (w : World) : Res World :=
  do settings <- readSettings w path;
  let mcpServers := buildServers settingsEntry servers in
  do settings <- setKey settings key (JObj mcpServers);
  saveSettingsFile w path settings.

Definition syncToSettingsWithMcpServers (servers : list MCPServer) (path : string)
    (w : World) : Res World :=
  syncToSettingsWithKey servers path "mcpServers" w.

Definition claudeCodeEntry (server : MCPServer) : json :=
  if isHTTP server then
    JObj (setIf (0 <? maplen (MCPServer.Headers server)) "headers"
            (encStrMap (MCPServer.Headers server))
         (<["url" := JStr (MCPServer.URL server)]> {["type" := JStr "http"]}))
  else
    JObj (setIf (0 <? maplen (MCPServer.Env server)) "env"
            (encStrMap (MCPServer.Env server))
         (setIf (0 <? len (MCPServer.Args server)) "args"
            (encStrings (MCPServer.Args server))
         (<["command" := JStr (MCPServer.Command server)]> {["type" := JStr "stdio"]}))).

Definition syncToClaudeCode (servers : list MCPServer) (path : string) (w : World)
    : Res World :=
  do settings <- readSettings w path;
  let mcpServers := buildServers claudeCodeEntry servers in
  do settings <- setKey settings "mcpServers" (JObj mcpServers);
  saveSettingsFile w path settings.

Definition openCodeEntry (server : MCPServer) : json :=
  if isHTTP server then
    JObj (setIf (0 <? maplen (MCPServer.Headers server)) "headers"
            (encStrMap (MCPServer.Headers server))
         (<["type" := JStr "remote"]> {["url" := JStr (MCPServer.URL server)]}))
  else
    (* command := []string{server.Command}; command = append(command, server.Args...) *)
    let command := MCPServer.Command server :: elems (MCPServer.Args server) in
    JObj (setIf (0 <? maplen (MCPServer.Env server)) "environment"
            (encStrMap (MCPServer.Env server))
         (<["type" := JStr "local"]> {["command" := JArr (JStr <$> command)]})).

Definition syncToOpenCode (servers : list MCPServer) (path : string) (w : World)
    : Res World :=
  do settings <- readSettings w path;
  let mcpServers := buildServers openCodeEntry servers in
  do settings <- setKey settings "mcp" (JObj mcpServers);
  saveSettingsFile w path settings.

Definition zedEntry (server : MCPServer) : json :=
  if isHTTP server then
    JObj (setIf (0 <? maplen (MCPServer.Headers server)) "headers"
            (encStrMap (MCPServer.Headers server))
         (<["url" := JStr (MCPServer.URL server)]> {["settings" := JObj ∅]}))
  else
    let command :=
      setIf (0 <? maplen (MCPServer.Env server)) "env" (encStrMap (MCPServer.Env server))
     (setIf (0 <? len (MCPServer.Args server)) "args" (encStrings (MCPServer.Args server))
        {["path" := JStr (MCPServer.Command server)]}) in
    JObj (<["command" := JObj command]> {["settings" := JObj ∅]}).

Definition syncToZed (servers : list MCPServer) (path : string) (w : World)
    : Res World :=
  do settings <- readSettings w path;
  let contextServers := buildServers zedEntry servers in
  do settings <- setKey settings "context_servers" (JObj contextServers);
  saveSettingsFile w path settings.

Definition continueTransport (server : MCPServer) : json :=
  if isHTTP server then
    JObj (setIf (0 <? maplen (MCPServer.Headers server)) "headers"
            (encStrMap (MCPServer.Headers server))
         (<["type" := JStr "sse"]> {["url" := JStr (MCPServer.URL server)]}))
  else
    JObj (setIf (0 <? maplen (MCPServer.Env server)) "env"
            (encStrMap (MCPServer.Env server))
         (setIf (0 <? len (MCPServer.Args server)) "args"
            (encStrings (MCPServer.Args server))
         (<["type" := JStr "stdio"]> {["command" := JStr (MCPServer.Command server)]}))).

Definition continueEntry (server : MCPServer) : json :=
  JObj (<["name" := JStr (MCPServer.Name server)]>
          {["transport" := continueTransport server]}).

Definition syncToContinue (servers : list MCPServer) (path : string) (w : World)
    : Res World :=
  do settings <- readSettings w path;
  let mcpServers := continueEntry <$> servers in
  do settings <- setKey settings "mcpServers" (JArr mcpServers);
  saveSettingsFile w path settings.

(** [syncToVSCodeMCP] reads nothing: the file becomes [{"servers": ...}]. *)
Definition syncToVSCodeMCP (servers : list MCPServer) (path : string) (w : World)
    : Res World :=
  let serversMap := buildServers settingsEntry servers in
  saveSettingsFile w path {["servers" := JObj serversMap]}.

Module MCPServerEntry.
Record t : Type := mk {
  Command : string;
  Args : slice string;
  Env : strmap;
  URL : string;
  Headers : strmap }.
End MCPServerEntry.
Abbreviation MCPServerEntry := MCPServerEntry.t.

(** How [json.MarshalIndent] prints an [MCPServerEntry]: every field is
    tagged [omitempty]. *)
Definition encEntry (e : MCPServerEntry) : json :=
  JObj (omitStr "command" (MCPServerEntry.Command e)
       (omitStrings "args" (MCPServerEntry.Args e)
       (omitStrMap "env" (MCPServerEntry.Env e)
       (omitStr "url" (MCPServerEntry.URL e)
       (omitStrMap "headers" (MCPServerEntry.Headers e) ∅))))).

Definition mcpConfigEntry (server : MCPServer) : MCPServerEntry :=
  if isHTTP server then
    MCPServerEntry.mk "" None None (MCPServer.URL server) (MCPServer.Headers server)
  else
    MCPServerEntry.mk (MCPServer.Command server) (MCPServer.Args server)
      (MCPServer.Env server) "" None.

(** [saveMCPConfig] on the [MCPServers] map of an [MCPClientConfig]. *)
Definition saveMCPConfig (w : World) (path : string) (MCPServers : gmap string json)
    : Res World :=
  if negb (MkdirAllDir w path) then Err ErrCreateDir
  else if negb (canWrite w path) then Err ErrWriteConfig
  else Ok (putJSON w path (JObj {["mcpServers" := JObj MCPServers]})).

Definition syncToMCPConfig (servers : list MCPServer) (path : string) (w : World)
    : Res World :=
  saveMCPConfig w path (buildServers (fun s => encEntry (mcpConfigEntry s)) servers).

(** The adapters that merge into an existing settings file, with the key
    each one owns. *)
Inductive MergeAdapter : Type :=
| SettingsWithKey (key : string)
| ClaudeCode
| OpenCode
| Zed
| Continue.

Definition runMerge (a : MergeAdapter) (servers : list MCPServer) (path : string)
    (w : World) : Res World :=
  match a with
  | SettingsWithKey key => syncToSettingsWithKey servers path key w
  | ClaudeCode => syncToClaudeCode servers path w
  | OpenCode => syncToOpenCode servers path w
  | Zed => syncToZed servers path w
  | Continue => syncToContinue servers path w
  end.

Definition mcpKey (a : MergeAdapter) : string :=
  match a with
  | SettingsWithKey key => key
  | ClaudeCode => "mcpServers"
  | OpenCode => "mcp"
  | Zed => "context_servers"
  | Continue => "mcpServers"
  end.

(** The value a merge adapter stores under its key. *)
Definition ownedValue (a : MergeAdapter) (servers : list MCPServer) : json :=
  match a with
  | SettingsWithKey _ => JObj (buildServers settingsEntry servers)
  | ClaudeCode => JObj (buildServers claudeCodeEntry servers)
  | OpenCode => JObj (buildServers openCodeEntry servers)
  | Zed => JObj (buildServers zedEntry servers)
  | Continue => JArr (continueEntry <$> servers)
  end.

(** All adapters that write JSON: the merging ones and the two that replace
    the whole file. *)
Inductive JSONAdapter : Type :=
| Merging (a : MergeAdapter)
| MCPConfigFile
| VSCodeMCP.

Definition runJSON (a : JSONAdapter) (servers : list MCPServer) (path : string)
    (w : World) : Res World :=
  match a with
  | Merging a => runMerge a servers path w
  | MCPConfigFile => syncToMCPConfig servers path w
  | VSCodeMCP => syncToVSCodeMCP servers path w
  end.

Definition ownedKey (a : JSONAdapter) : string :=
  match a with
  | Merging a => mcpKey a
  | MCPConfigFile => "mcpServers"
  | VSCodeMCP => "servers"
  end.

(** The server names a value under the owned key has entries for: the keys
    of an object, the ["name"] fields of an array of objects. *)
Definition entryName (v : json) : option string :=
  match v with
  | JObj m => match m !! "name" with Some (JStr n) => Some n | _ => None end
  | _ => None
  end.

Definition entryNames (v : json) : gset string :=
  match v with
  | JObj m => dom m
  | JArr l => list_to_set (omap entryName l)
  | _ => ∅
  end.

Definition serverNames (servers : list MCPServer) : gset string :=
  list_to_set (MCPServer.Name <$> servers).

(** ** package clients: the TOML helpers of codex.go *)

Definition LF : string := String "010"%char "".

Definition isBlank (c : ascii) : bool :=
  Ascii.eqb c " "%char || Ascii.eqb c "009"%char.

(** The loop of [tomlSplitLines]: [cur] is [s[start:i]]. *)
Fixpoint splitLoop (cur s : string) : list string :=
  match s with
  | EmptyString => if String.eqb cur "" then [] else [cur]
  | String c rest =>
      if Ascii.eqb c "010"%char then cur :: splitLoop "" rest
      else splitLoop (cur +:+ String c "") rest
  end.

Definition tomlSplitLines (s : string) : list string :=
  if String.eqb s "" then [] else splitLoop "" s.

(** The loop of [tomlJoinLines]: [result] so far, at index [i]. *)
Fixpoint joinLoop (result : string) (i : nat) (lines : list string) : string :=
  match lines with
  | [] => result
  | line :: rest =>
      let result := if 0 <? i then result +:+ LF else result in
      joinLoop (result +:+ line) (S i) rest
  end.

Definition tomlJoinLines (lines : list string) : string :=
  if length lines =? 0 then "" else joinLoop "" 0 lines.

Fixpoint trimLeft (s : string) : string :=
  match s with
  | EmptyString => EmptyString
  | String c rest => if isBlank c then trimLeft rest else s
  end.

Fixpoint trimRight (s : string) : string :=
  match s with
  | EmptyString => EmptyString
  | String c rest =>
      match trimRight rest with
      | EmptyString => if isBlank c then EmptyString else String c EmptyString
      | r => String c r
      end
  end.

(** [start] moves right over blanks, then [end] moves left over blanks. *)
Definition tomlTrimWhitespace (s : string) : string := trimRight (trimLeft s).

Definition tomlHasPrefix (s pre : string) : bool :=
  (String.length pre <=? String.length s)
  && String.eqb (String.substring 0 (String.length pre) s) pre.

Definition tomlHasSuffix (s suffix : string) : bool :=
  (String.length suffix <=? String.length s)
  && String.eqb (String.substring (String.length s - String.length suffix)
                   (String.length suffix) s) suffix.

Definition isMcpHeader (line : string) : bool :=
  tomlHasPrefix (tomlTrimWhitespace line) "[mcp_servers.".

Definition isHeader (line : string) : bool :=
  tomlHasPrefix (tomlTrimWhitespace line) "[".

(** The first loop of [syncToCodex], with [inMcpSection] as it stands before
    the line. *)
Fixpoint filterLoop (inMcpSection : bool) (lines : list string) : list string :=
  match lines with
  | [] => []
  | line :: rest =>
      if isMcpHeader line then filterLoop true rest
      else
        let inMcpSection := if inMcpSection && isHeader line then false else inMcpSection in
        if negb inMcpSection then line :: filterLoop inMcpSection rest
        else filterLoop inMcpSection rest
  end.

(** [sort.Strings] on the keys of a map. *)
Definition sortedKeys (m : strmap) : list string :=
  merge_sort String.le ((map_to_list (entries m)).*1).

Definition valueAt (m : strmap) (k : string) : string :=
  match entries m !! k with Some v => v | None => "" end.

Section Codex.

(** [fmt.Sprintf("%q", s)], that is [strconv.Quote]. *)
Variable quote : string → string.

(** [%q = %q] for each key, [", "] before all but the first. *)
Fixpoint inlinePairs (i : nat) (keys : list string) (m : strmap) : string :=
  match keys with
  | [] => ""
  | k :: rest =>
      (if 0 <? i then ", " else "") +:+ quote k +:+ " = " +:+ quote (valueAt m k)
      +:+ inlinePairs (S i) rest m
  end.

Fixpoint quotedArgs (i : nat) (args : list string) : string :=
  match args with
  | [] => ""
  | arg :: rest => (if 0 <? i then ", " else "") +:+ quote arg +:+ quotedArgs (S i) rest
  end.

Definition inlineTable (key : string) (m : strmap) : string :=
  if 0 <? maplen m
  then key +:+ " = { " +:+ inlinePairs 0 (sortedKeys m) m +:+ " }" +:+ LF
  else "".

Definition codexSection (server : MCPServer) : string :=
  if isHTTP server then
    "[mcp_servers." +:+ MCPServer.Name server +:+ "]" +:+ LF
    +:+ "url = " +:+ quote (MCPServer.URL server) +:+ LF
    +:+ inlineTable "http_headers" (MCPServer.Headers server)
  else
    "[mcp_servers." +:+ MCPServer.Name server +:+ "]" +:+ LF
    +:+ "command = " +:+ quote (MCPServer.Command server) +:+ LF
    +:+ (if 0 <? len (MCPServer.Args server)
         then "args = [" +:+ quotedArgs 0 (elems (MCPServer.Args server)) +:+ "]" +:+ LF
         else "")
    +:+ inlineTable "env" (MCPServer.Env server).

(** The tail of [syncToCodex]: the kept text, a blank line, the sections. *)
Definition combine (filteredLines mcpSections : list string) : string :=
  let result := tomlJoinLines filteredLines in
  if 0 <? length mcpSections then
    let result :=
      if negb (String.eqb result "") && negb (tomlHasSuffix result (LF +:+ LF)) then
        if tomlHasSuffix result LF then result +:+ LF else result +:+ LF +:+ LF
      else result in
    fold_left (fun result section => result +:+ section +:+ LF) mcpSections result
  else result.

(** What [syncToCodex] writes, from what it read. *)
Definition codexRewrite (servers : list MCPServer) (existingContent : string) : string :=
  let lines := tomlSplitLines existingContent in
  let filteredLines := filterLoop false lines in
  let mcpSections := codexSection <$> servers in
  combine filteredLines mcpSections.

Definition syncToCodex (servers : list MCPServer) (path : string) (w : World)
    : Res World :=
  do existingContent <-
    match ReadFileText w path with
    | ReadNotExist => Ok ""
    | ReadError => Err ErrReadConfig
    | ReadData data => Ok data
    end;
  let result := codexRewrite servers existingContent in
  if negb (MkdirAllDir w path) then Err ErrCreateDir
  else if negb (canWrite w path) then Err ErrOS
  else Ok (putText w path result).

End Codex.

(** [strconv.Quote] on bytes: exact on ASCII; a byte of a multi-byte rune is
    copied, as Go does for printable text. *)
Definition hexDigit (n : N) : ascii :=
  ascii_of_N (if (n <? 10)%N then 48 + n else 87 + n)%N.

Definition quoteByte (c : ascii) : string :=
  let n := N_of_ascii c in
  if (n =? 34)%N then String "\"%char (String c "")
  else if (n =? 92)%N then String "\"%char (String "\"%char "")
  else if (32 <=? n)%N && negb (n =? 127)%N then String c ""
  else if (n =? 7)%N then "\a"
  else if (n =? 8)%N then "\b"
  else if (n =? 12)%N then "\f"
  else if (n =? 10)%N then "\n"
  else if (n =? 13)%N then "\r"
  else if (n =? 9)%N then "\t"
  else if (n =? 11)%N then "\v"
  else String "\"%char (String "x"%char (String (hexDigit (n / 16)) (String (hexDigit (n mod 16)) ""))).

Fixpoint quoteBytes (s : string) : string :=
  match s with
  | EmptyString => EmptyString
  | String c rest => quoteByte c +:+ quoteBytes rest
  end.

Definition strconvQuote (s : string) : string :=
  String "034"%char (quoteBytes s +:+ String "034"%char "").

(** ** package clients: the registry *)

Module Client.
Record t : Type := mk {
  Name : string;
  DisplayName : string;
  GlobalPath : World → Res string;
  LocalPath : option (World → Res string);   (* nil if no local config supported *)
  SupportsLocal : bool;
  SyncFunc : list MCPServer → string → World → Res World }.
End Client.
Abbreviation Client := Client.t.

Definition UserHomeDir (w : World) : Res string :=
  match World.homeDir w with Some home => Ok home | None => Err ErrOS end.

Definition Getwd (w : World) : Res string :=
  match World.workDir w with Some dir => Ok (joinPath dir) | None => Err ErrOS end.

Definition underHome (elem : list string) (w : World) : Res string :=
  do home <- UserHomeDir w; Ok (Join home elem).

Definition underCwd (elem : list string) (w : World) : Res string :=
  do cwd <- Getwd w; Ok (Join cwd elem).

(** The [switch runtime.GOOS] shared by the clients that live in an
    application-support directory; [tail] is the path below it. *)
Definition appSupport (darwin linux tail : list string) (w : World) : Res string :=
  do home <- UserHomeDir w;
  if String.eqb (World.goos w) "darwin" then Ok (Join home (darwin ++ tail))
  else if String.eqb (World.goos w) "windows" then
    let appData :=
      if String.eqb (Getenv w "APPDATA") "" then Join home ["AppData"; "Roaming"]
      else Getenv w "APPDATA" in
    Ok (Join appData tail)
  else if String.eqb (World.goos w) "linux" then Ok (Join home (linux ++ tail))
  else Err (ErrUnsupportedOS (World.goos w)).

Definition getCodexConfigPath (w : World) : Res string :=
  if String.eqb (Getenv w "CODEX_HOME") "" then
    do home <- UserHomeDir w; Ok (Join (Join home [".codex"]) ["config.toml"])
  else Ok (Join (Getenv w "CODEX_HOME") ["config.toml"]).

Definition darwinSupport : list string := ["Library"; "Application Support"].

Definition codeGlobalStorage : list string := ["Code"; "User"; "globalStorage"].

Section Registry.

Variable quote : string → string.

(** The clients, as their [init] functions register them. *)
Definition registered : list Client := [
  Client.mk "claude-desktop" "Claude Desktop"
    (appSupport darwinSupport [".config"] ["Claude"; "claude_desktop_config.json"])
    None false syncToMCPConfig;
  Client.mk "claude-code" "Claude Code"
    (underHome [".claude.json"]) (Some (underCwd [".mcp.json"])) true syncToClaudeCode;
  Client.mk "cursor" "Cursor"
    (underHome [".cursor"; "mcp.json"]) (Some (underCwd [".cursor"; "mcp.json"]))
    true syncToMCPConfig;
  Client.mk "windsurf" "Windsurf"
    (appSupport darwinSupport [".config"]
       ["Windsurf"; "User"; "globalStorage"; "windsurf.mcp"; "mcp.json"])
    (Some (underCwd [".windsurf"; "mcp.json"])) true syncToMCPConfig;
  Client.mk "zed" "Zed"
    (underHome [".config"; "zed"; "settings.json"]) None false syncToZed;
  Client.mk "opencode" "OpenCode"
    (underHome [".config"; "opencode"; "opencode.json"])
    (Some (underCwd ["opencode.json"])) true syncToOpenCode;
  Client.mk "cline" "Cline"
    (appSupport darwinSupport [".config"]
       (codeGlobalStorage ++ ["saoudrizwan.claude-dev"; "settings"; "cline_mcp_settings.json"]))
    None false syncToMCPConfig;
  Client.mk "vscode" "VS Code (Copilot)"
    (appSupport darwinSupport [".config"] ["Code"; "User"; "settings.json"])
    (Some (underCwd [".vscode"; "mcp.json"])) true syncToVSCodeMCP;
  Client.mk "continue" "Continue"
    (underHome [".continue"; "config.json"]) None false syncToContinue;
  Client.mk "codex" "Codex (OpenAI)" getCodexConfigPath None false (syncToCodex quote);
  Client.mk "gemini" "Gemini CLI"
    (underHome [".gemini"; "settings.json"]) (Some (underCwd [".gemini"; "settings.json"]))
    true syncToSettingsWithMcpServers;
  Client.mk "kilo-code" "Kilo Code"
    (appSupport darwinSupport [".config"]
       (codeGlobalStorage ++ ["kilocode.kilo-code"; "settings"; "mcp_settings.json"]))
    (Some (underCwd [".kilocode"; "mcp.json"])) true syncToMCPConfig;
  Client.mk "zencoder" "ZenCoder"
    (appSupport darwinSupport [".config"]
       (codeGlobalStorage ++ ["zencoderAI.zencoder"; "mcp_settings.json"]))
    None false syncToMCPConfig ].

Definition RegisterClient (registry : gmap string Client) (client : Client)
    : gmap string Client :=
  <[Client.Name client := client]> registry.

Definition clientRegistry : gmap string Client :=
  fold_left RegisterClient registered ∅.

Definition GetClient (name : string) : Res Client :=
  match clientRegistry !! name with
  | Some client => Ok client
  | None => Err (ErrUnknownClient name)
  end.

(** [Client.Sync]: the path written, and the world after the adapter ran.
    Calling a nil [LocalPath] panics. *)
Definition Sync (c : Client) (servers : list MCPServer) (local : bool) (w : World)
    : Res (string * World) :=
  do path <-
    (if local then
       if negb (Client.SupportsLocal c) then Err (ErrNoLocal (Client.DisplayName c))
       else match Client.LocalPath c with
            | Some localPath => localPath w
            | None => Panic
            end
     else Client.GlobalPath c w);
  do w <- Client.SyncFunc c servers path w;
  Ok (path, w).

(** ** package cmd: resyncAll *)

(** An entry of [errors]. *)
Inductive SyncFailure : Type :=
| FailClient (client : string) (e : error)         (* "%s: %v" *)
| FailServerNotFound (client name : string)        (* "%s: server %q not found" *)
| FailNoServers (client : string).                 (* "%s: no servers to sync" *)

(** How [resyncAll] ends: it returned, with the world, [successCount] and
    [errors] (it returns an error when [errors] is not empty), or an adapter
    panicked. *)
Inductive Resync : Type :=
| Finished (w : World) (successCount : nat) (errors : list SyncFailure)
| Crashed.

(** The inner loop, over the names of one record. *)
Fixpoint collectServers (cfg : Config) (client : string) (names : list string)
    (serversToSync : slice MCPServer) (errors : list SyncFailure)
    : slice MCPServer * list SyncFailure :=
  match names with
  | [] => (serversToSync, errors)
  | name :: rest =>
      match GetServer cfg name with
      | Ok server => collectServers cfg client rest (append serversToSync server) errors
      | _ =>
          (* errors = append(errors, ...); continue *)
          collectServers cfg client rest serversToSync
            (errors ++ [FailServerNotFound client name])
      end
  end.

(** The outer loop, over the synced-client records. *)
Fixpoint resyncLoop (cfg : Config) (syncedClients : list SyncedClient) (w : World)
    (errors : list SyncFailure) (successCount : nat) : Resync :=
  match syncedClients with
  | [] => Finished w successCount errors
  | sc :: rest =>
      match GetClient (SyncedClient.Name sc) with
      | Ok client =>
          let '(serversToSync, errors) :=
            if 0 <? len (SyncedClient.Servers sc)
            then collectServers cfg (SyncedClient.Name sc)
                   (elems (SyncedClient.Servers sc)) None errors
            else (ListServers cfg, errors) in
          if len serversToSync =? 0 then
            resyncLoop cfg rest w (errors ++ [FailNoServers (SyncedClient.Name sc)])
              successCount
          else
            match Sync client (elems serversToSync) (SyncedClient.Local sc) w with
            | Ok (_, w) => resyncLoop cfg rest w errors (S successCount)
            | Err e =>
                resyncLoop cfg rest w (errors ++ [FailClient (SyncedClient.Name sc) e])
                  successCount
            | Panic => Crashed
            end
      | Err e =>
          resyncLoop cfg rest w (errors ++ [FailClient (SyncedClient.Name sc) e])
            successCount
      | Panic => Crashed
      end
  end.

Definition resyncAll (cfg : Config) (w : World) : Resync :=
  let syncedClients := GetSyncedClients cfg in
  if len syncedClients =? 0 then Finished w 0 []
  else resyncLoop cfg (elems syncedClients) w [] 0.

End Registry.

(** ** Notions the statements about the TOML adapter use *)

(** The line feed occurs in [s]. *)
Fixpoint hasLF (s : string) : bool :=
  match s with
  | EmptyString => false
  | String c rest => Ascii.eqb c "010"%char || hasLF rest
  end.

(** Every line followed by a line feed. *)
Definition unlines (lines : list string) : string :=
  fold_right (fun line text => line +:+ LF +:+ text) "" lines.

(** [inMcpSection] after a line, from its value before the line; the line is
    dropped when this is true. *)
Definition nextState (inside : bool) (line : string) : bool :=
  isMcpHeader line || (inside && negb (isHeader line)).




(** What [combine] puts between the kept text and the first section. *)
Definition separator (kept : string) : string :=
  if String.eqb kept "" then ""
  else if tomlHasSuffix kept (LF +:+ LF) then ""
  else if tomlHasSuffix kept LF then LF
  else LF +:+ LF.

(** The owned headers of a file, in order. *)
Definition ownedHeaders (text : string) : list string :=
  List.filter isMcpHeader (tomlSplitLines text).

Definition sectionHeader (server : MCPServer) : string :=
  "[mcp_servers." +:+ MCPServer.Name server +:+ "]".

Section SectionLines.

Variable quote : string → string.

(** The lines of a generated section: the header, the url or command line,
    the args line and the inline table, the last two only when not empty. *)
Definition tableLine (key : string) (m : strmap) : list string :=
  if 0 <? maplen m
  then [key +:+ " = { " +:+ inlinePairs quote 0 (sortedKeys m) m +:+ " }"]
  else [].

Definition argsLine (args : slice string) : list string :=
  if 0 <? len args then ["args = [" +:+ quotedArgs quote 0 (elems args) +:+ "]"] else [].

Definition sectionLines (server : MCPServer) : list string :=
  if isHTTP server then
    [sectionHeader server; "url = " +:+ quote (MCPServer.URL server)]
    ++ tableLine "http_headers" (MCPServer.Headers server)
  else
    [sectionHeader server; "command = " +:+ quote (MCPServer.Command server)]
    ++ argsLine (MCPServer.Args server)
    ++ tableLine "env" (MCPServer.Env server).

End SectionLines.

(** ** Sample records, the two of the specification's scenarios *)

Definition fsServer : MCPServer :=
  MCPServer.mk "fs" "stdio" "npx" (Some ["-y"; "pkg"; "/tmp"]) None "" None.

Definition apiServer : MCPServer :=
  MCPServer.mk "api" "http" "" None None "https://x/mcp"
    (Some {["Authorization" := "Bearer t"]}).

(** A machine with a home directory and no file at all. *)
Definition freshWorld : World :=
  World.mk (Some "/home/u") (Some ["home"; "u"; "proj"]) "linux" ∅ ∅ ∅ ∅ ∅ ∅.

(** The record [mcpr add stdio --name fs npx] builds: [Args] is [args[1:]],
    an empty slice that is not nil. *)
Definition bareServer : MCPServer :=
  MCPServer.mk "fs" "stdio" "npx" (Some []) None "" None.


(** A machine whose global config file is not JSON, and with a file that
    cannot be read. *)
Definition brokenWorld : World :=
  World.mk (Some "/home/u") (Some ["home"; "u"; "proj"]) "linux" ∅
    {["/home/u/.config/mcpr/config.json" := Malformed]} ∅ {["/locked.json"]} ∅ ∅.

(** A machine whose Zed settings hold a theme. *)
Definition themedWorld : World :=
  World.mk (Some "/home/u") (Some ["home"; "u"; "proj"]) "linux" ∅
    {["/home/u/.config/zed/settings.json" := Doc (JObj {["theme" := JStr "dark"]})]}
    ∅ ∅ ∅ ∅.

(** The line [model = "gpt-4"]. *)
Definition modelLine : string :=
  "model = " +:+ String "034"%char ("gpt-4" +:+ String "034"%char "").

(** A machine whose Codex file holds the [model] line and three empty
    lines. *)
Definition codexWorld : World :=
  World.mk (Some "/home/u") (Some ["home"; "u"; "proj"]) "linux" ∅ ∅
    {["/home/u/.codex/config.toml" := modelLine +:+ LF +:+ LF +:+ LF +:+ LF]} ∅ ∅ ∅.


(** A store with one server and three synced clients, the second of which
    names a server that is not in the store. *)
Definition staleConfig : Config :=
  Config.mk (Some [fsServer])
    (Some [SyncedClient.mk "gemini" false None;
           SyncedClient.mk "zed" false (Some ["gone"]);
           SyncedClient.mk "codex" false None])
    "/home/u/.config/mcpr/config.json".

(** The same, with the second record naming a server of the store too. *)
Definition halfStaleConfig : Config :=
  Config.mk (Some [fsServer])
    (Some [SyncedClient.mk "gemini" false None;
           SyncedClient.mk "zed" false (Some ["fs"; "gone"]);
           SyncedClient.mk "codex" false None])
    "/home/u/.config/mcpr/config.json".


(** ** Sequences of operations on the server list *)

Definition serverNameList (c : Config) : list string :=
  MCPServer.Name <$> elems (Config.Servers c).

Inductive ServerOp : Type :=
| OpAddServer (server : MCPServer)
| OpRemoveServer (name : string).

Definition applyServerOp (c : Config) (op : ServerOp) : Config :=
  match op with
  | OpAddServer server => fst (AddServer c server)
  | OpRemoveServer name => fst (RemoveServer c name)
  end.

(** ** Further samples *)

(** An aggregate that was never bound to a file. *)
Definition unboundConfig : Config := Config.mk (Some [fsServer]) None "".


(** ** What an entry of a client file may hold *)

(** The value is an object with the fields of the server's kind only: an
    http server has no [command], [args] or [env], any other server no [url]
    or [headers]; and the optional fields are there exactly when the record
    holds something for them. *)
Definition kindExclusive (s : MCPServer) (v : json) : Prop :=
  ∃ m, v = JObj m ∧
       if isHTTP s then
         m !! "command" = None ∧ m !! "args" = None ∧ m !! "env" = None ∧
         (is_Some (m !! "headers") ↔ 0 < maplen (MCPServer.Headers s))
       else
         m !! "url" = None ∧ m !! "headers" = None ∧
         (is_Some (m !! "args") ↔ 0 < len (MCPServer.Args s)) ∧
         (is_Some (m !! "env") ↔ 0 < maplen (MCPServer.Env s)).

(** ** Notions for the TOML helpers *)

(** Every byte of the string is a space or a tab. *)
Fixpoint allBlank (s : string) : bool :=
  match s with
  | EmptyString => true
  | String c rest => isBlank c && allBlank rest
  end.

(** ** Notions for resyncAll *)

(** The failures that end the handling of a record; a server that was not
    found does not. *)
Definition recordFailure (f : SyncFailure) : bool :=
  match f with
  | FailServerNotFound _ _ => false
  | _ => true
  end.

Definition failureClient (f : SyncFailure) : string :=
  match f with
  | FailClient client _ => client
  | FailServerNotFound client _ => client
  | FailNoServers client => client
  end.

(** A store with a synced client and no server. *)
Definition emptyStore : Config :=
  Config.mk None (Some [SyncedClient.mk "zed" false None; SyncedClient.mk "nope" false None])
    "/home/u/.config/mcpr/config.json".

(** ** package cmd

    What a command prints is not modelled; a command is the world it leaves
    and the error it returns. *)

Inductive CmdError : Type :=
| CmdLoad (e : error)                  (* "failed to load config: %w" *)
| CmdConfigPath (e : error)            (* "failed to get config path: %w" *)
| CmdClient (e : error)                (* "%w\n\nSupported clients: %s" *)
| CmdReturned (e : error)              (* an error of package config, returned as it is *)
| CmdNoServers                         (* "no servers configured. Use 'mcpr add' ..." *)
| CmdSync (display : string) (e : error)   (* "failed to sync to %s: %w" *)
| CmdSaveSynced (e : error)            (* "failed to save synced client info: %w" *)
| CmdNotSynced (clientName : string) (local : bool)
                                       (* "client %q%s is not in the sync list" *)
| CmdSave (e : error)                  (* "failed to save config: %w" *)
| CmdSomeFailed.                       (* "some clients failed to sync" *)

Inductive Ran : Type :=
| Returned (w : World) (err : option CmdError)
| Panicked.

(** [strings.HasPrefix]. *)
Definition HasPrefix (s pre : string) : bool :=
  (String.length pre <=? String.length s)
  && String.eqb (String.substring 0 (String.length pre) s) pre.

(** [strings.Index(s, sep)] for a separator of one byte; [None] is [-1]. *)
Fixpoint indexByte (c : ascii) (s : string) : option nat :=
  match s with
  | EmptyString => None
  | String x rest => if Ascii.eqb x c then Some 0 else S <$> indexByte c rest
  end.

(** [s[n:]] and [s[:n]]. *)
Definition sliceFrom (n : nat) (s : string) : string :=
  String.substring n (String.length s - n) s.

Definition sliceTo (n : nat) (s : string) : string := String.substring 0 n s.

(** [if idx := strings.Index(s, sep); idx != -1 { s = s[:idx] }]. *)
Definition cutAt (sep : ascii) (s : string) : string :=
  match indexByte sep s with
  | Some idx => sliceTo idx s
  | None => s
  end.

Definition extractHostFromURL (url : string) : string :=
  let s := url in
  (* Remove protocol *)
  let s := if HasPrefix s "https://" then sliceFrom 8 s
           else if HasPrefix s "http://" then sliceFrom 7 s
           else s in
  (* Take only host part (before first /) *)
  let s := cutAt "/" s in
  (* Remove port *)
  let s := cutAt ":" s in
  s.

(** [parts := strings.SplitN(e, "=", 2)] when [len(parts) == 2]. *)
Definition splitKV (e : string) : option (string * string) :=
  match indexByte "=" e with
  | Some idx => Some (sliceTo idx e, sliceFrom (S idx) e)
  | None => None
  end.

(** The loops that fill [env] and [headers]. *)
Definition parsePairs (pairs : list string) : gmap string string :=
  fold_left (fun m e => match splitKV e with
                        | Some (k, v) => <[k := v]> m
                        | None => m
                        end) pairs ∅.

(** [if len(m) > 0 { server.Field = m }]. *)
Definition unlessEmpty (m : gmap string string) : strmap :=
  if 0 <? size m then Some m else None.

(** The loop of [runClientSync] over [clientSyncServers]: it returns at the
    first name that is not in the store. *)
Fixpoint lookupServers (cfg : Config) (names : list string)
    (serversToSync : slice MCPServer) (serverNames : slice string)
    : Res (slice MCPServer * slice string) :=
  match names with
  | [] => Ok (serversToSync, serverNames)
  | name :: rest =>
      do server <- GetServer cfg name;
      lookupServers cfg rest (append serversToSync server) (append serverNames name)
  end.


Section Cmd.

Variable quote : string → string.

(** [filepath.Base]. *)
Variable Base : string → string.

(** [resyncAll] as the commands see it: the error it returns. *)
Definition resyncAllErr (cfg : Config) (w : World) : Ran :=
  match resyncAll quote cfg w with
  | Finished w _ errors =>
      Returned w (if 0 <? length errors then Some CmdSomeFailed else None)
  | Crashed => Panicked
  end.






Definition runClientSync (clientSyncServers : slice string) (clientSyncLocal : bool)
    (args : list string) (w : World) : Ran :=
  match Load w with
  | Err e => Returned w (Some (CmdLoad e))
  | Panic => Panicked
  | Ok cfg =>
      match args with
      | [] => resyncAllErr cfg w
      | clientName :: _ =>
          match GetClient quote clientName with
          | Err e => Returned w (Some (CmdClient e))
          | Panic => Panicked
          | Ok client =>
              match (if 0 <? len clientSyncServers
                     then lookupServers cfg (elems clientSyncServers) None None
                     else Ok (ListServers cfg, None)) with
              | Err e => Returned w (Some (CmdReturned e))
              | Panic => Panicked
              | Ok (serversToSync, serverNames) =>
                  if len serversToSync =? 0 then Returned w (Some CmdNoServers)
                  else
                    match Sync client (elems serversToSync) clientSyncLocal w with
                    | Err e => Returned w (Some (CmdSync (Client.DisplayName client) e))
                    | Panic => Panicked
                    | Ok (_, w) =>
                        let cfg :=
                          AddSyncedClient cfg clientName clientSyncLocal serverNames in
                        match Save w cfg with
                        | (_, Err e) => Returned w (Some (CmdSaveSynced e))
                        | (_, Panic) => Panicked
                        | (_, Ok w) => Returned w None
                        end
                    end
              end
          end
      end
  end.

Definition runClientRemove (clientSyncLocal : bool) (args : list string) (w : World) : Ran :=
  match args with
  | [] => Panicked                      (* args[0] *)
  | clientName :: _ =>
      match GetClient quote clientName with
      | Err e => Returned w (Some (CmdClient e))
      | Panic => Panicked
      | Ok _ =>
          match Load w with
          | Err e => Returned w (Some (CmdLoad e))
          | Panic => Panicked
          | Ok cfg =>
              match GetSyncedClient cfg clientName clientSyncLocal with
              | None => Returned w (Some (CmdNotSynced clientName clientSyncLocal))
              | Some _ =>
                  let cfg := RemoveSyncedClient cfg clientName clientSyncLocal in
                  match Save w cfg with
                  | (_, Err e) => Returned w (Some (CmdSave e))
                  | (_, Panic) => Panicked
                  | (_, Ok w) => Returned w None
                  end
              end
          end
      end
  end.

End Cmd.

(** * Properties *)

(** ** Config store: servers *)

Lemma nameTaken_true l name :
  nameTaken l name = true ↔ ∃ s, s ∈ l ∧ MCPServer.Name s = name.
Proof.
  induction l as [|s l IH]; simpl.
  - split; [discriminate|]. intros (s & Hs & _). by apply elem_of_nil in Hs.
  - destruct (String.eqb_spec (MCPServer.Name s) name) as [Heq|Hne].
    + split; [|done]. intros _. exists s. split; [left|done].
    + rewrite IH. split.
      * intros (s' & Hs' & Hn). exists s'. split; [by right|done].
      * intros (s' & Hs' & Hn). apply elem_of_cons in Hs' as [->|Hs']; [done|].
        by exists s'.
Qed.

Lemma nameTaken_false l name :
  nameTaken l name = false ↔ ∀ s, s ∈ l → MCPServer.Name s ≠ name.
Proof.
  rewrite <- not_true_iff_false, nameTaken_true. split.
  - intros Hn s Hs Heq. apply Hn. by exists s.
  - intros Hall (s & Hs & Heq). by apply (Hall s).
Qed.

(** C5. Adding a record whose name is already in the store fails with
    [AlreadyExists] and leaves the aggregate, hence the server list with its
    contents and order, as it was; adding a record with a fresh name succeeds
    and yields the old list followed by the new record. *)
Theorem AddServer_uniqueness (c : Config) (server : MCPServer) :
  ((∃ s, s ∈ elems (Config.Servers c) ∧ MCPServer.Name s = MCPServer.Name server) →
     ∃ e, AddServer c server = (c, Some e) ∧ kind e = AlreadyExists) ∧
  ((∀ s, s ∈ elems (Config.Servers c) → MCPServer.Name s ≠ MCPServer.Name server) →
     ∃ c', AddServer c server = (c', None) ∧
           elems (Config.Servers c') = elems (Config.Servers c) ++ [server] ∧
           Config.SyncedClients c' = Config.SyncedClients c ∧
           Config.path c' = Config.path c).
Proof.
  unfold AddServer. split.
  - intros Hex. apply nameTaken_true in Hex. rewrite Hex.
    by exists (ErrServerExists (MCPServer.Name server)).
  - intros Hfresh. apply nameTaken_false in Hfresh. rewrite Hfresh.
    by eexists.
Qed.

Lemma AddServer_uniqueness_witness :
  (∃ e, AddServer (Config.mk (Some [fsServer]) None "p") fsServer
          = (Config.mk (Some [fsServer]) None "p", Some e) ∧ kind e = AlreadyExists) ∧
  (∃ c', AddServer (Config.mk (Some [fsServer]) None "p") apiServer = (c', None) ∧
         elems (Config.Servers c') = [fsServer; apiServer] ∧
         Config.SyncedClients c' = None ∧ Config.path c' = "p").
Proof.
  split.
  - apply (AddServer_uniqueness (Config.mk (Some [fsServer]) None "p") fsServer).
    exists fsServer. split; [apply list_elem_of_singleton|]; reflexivity.
  - apply (AddServer_uniqueness (Config.mk (Some [fsServer]) None "p") apiServer).
    simpl. intros s Hs. apply list_elem_of_singleton in Hs. subst s. simpl. discriminate.
Defined.

(** ** Config store: synced clients *)

Lemma sameKey_true sc n b : sameKey sc n b = true ↔ syncedKey sc = (n, b).
Proof.
  unfold sameKey, syncedKey. rewrite andb_true_iff, String.eqb_eq, Bool.eqb_true_iff.
  split; [intros [-> ->]; done | intros [= -> ->]; done].
Qed.

Lemma updateSynced_keys l n b s l' :
  updateSynced l n b s = Some l' → map syncedKey l' = map syncedKey l.
Proof.
  revert l'. induction l as [|sc l IH]; intros l'; simpl; [discriminate|].
  destruct (sameKey sc n b).
  - intros [= <-]. reflexivity.
  - destruct (updateSynced l n b s) as [l0|]; simpl; [|discriminate].
    intros [= <-]. simpl. f_equal. by apply IH.
Qed.

Lemma updateSynced_None l n b s :
  updateSynced l n b s = None ↔ (n, b) ∉ map syncedKey l.
Proof.
  induction l as [|sc l IH]; simpl.
  - split; [intros _; apply not_elem_of_nil | done].
  - destruct (sameKey sc n b) eqn:Hk.
    + apply sameKey_true in Hk. split; [discriminate|].
      intros Hn. exfalso. apply Hn. rewrite Hk. left.
    + assert (syncedKey sc ≠ (n, b)) as Hne.
      { intros Heq. apply sameKey_true in Heq. congruence. }
      rewrite not_elem_of_cons, <- IH.
      destruct (updateSynced l n b s); simpl; split; try done.
      intros [_ ?]; done.
Qed.

Lemma removeFirstSynced_sublist l n b l' :
  removeFirstSynced l n b = Some l' → sublist (map syncedKey l') (map syncedKey l).
Proof.
  revert l'. induction l as [|sc l IH]; intros l'; simpl; [discriminate|].
  destruct (sameKey sc n b).
  - intros [= <-]. by apply sublist_cons.
  - destruct (removeFirstSynced l n b) as [l0|]; simpl; [|discriminate].
    intros [= <-]. simpl. apply sublist_skip. by apply IH.
Qed.

Lemma AddSyncedClient_NoDup c n b s :
  NoDup (syncedKeys c) → NoDup (syncedKeys (AddSyncedClient c n b s)).
Proof.
  unfold AddSyncedClient, syncedKeys. intros Hnd.
  destruct (updateSynced (elems (Config.SyncedClients c)) n b s) as [l|] eqn:Hu; simpl.
  - by rewrite (updateSynced_keys _ _ _ _ _ Hu).
  - apply updateSynced_None in Hu.
    rewrite map_app. simpl. apply NoDup_app. split; [done|]. split.
    + intros k Hk Hin. apply list_elem_of_singleton in Hin. by subst k.
    + apply NoDup_singleton.
Qed.

Lemma RemoveSyncedClient_NoDup c n b :
  NoDup (syncedKeys c) → NoDup (syncedKeys (RemoveSyncedClient c n b)).
Proof.
  unfold RemoveSyncedClient, syncedKeys. intros Hnd.
  destruct (removeFirstSynced (elems (Config.SyncedClients c)) n b) as [l|] eqn:Hr; simpl.
  - eapply sublist_NoDup; [exact Hnd|]. by eapply removeFirstSynced_sublist.
  - done.
Qed.

Lemma AddSyncedClient_existing c n b s :
  (n, b) ∈ syncedKeys c →
  syncedKeys (AddSyncedClient c n b s) = syncedKeys c ∧
  ∃ sc, GetSyncedClient (AddSyncedClient c n b s) n b = Some sc ∧
        SyncedClient.Servers sc = s.
Proof.
  unfold AddSyncedClient, syncedKeys, GetSyncedClient. intros Hin.
  destruct (updateSynced (elems (Config.SyncedClients c)) n b s) as [l|] eqn:Hu.
  - split; [by apply (updateSynced_keys _ _ _ _ _ Hu)|]. simpl.
    clear Hin. revert l Hu.
    induction (elems (Config.SyncedClients c)) as [|sc0 l0 IH]; intros l; simpl;
      [discriminate|].
    destruct (sameKey sc0 n b) eqn:Hk.
    + intros [= <-]. simpl. unfold sameKey in *. simpl. rewrite Hk. by eexists.
    + destruct (updateSynced l0 n b s) as [l1|]; simpl; [|discriminate].
      intros [= <-]. simpl. rewrite Hk. by apply IH.
  - apply updateSynced_None in Hu. done.
Qed.

(** C9. From an aggregate whose synced-client records have pairwise distinct
    (name, local) keys, every sequence of [AddSyncedClient] and
    [RemoveSyncedClient] calls leads to an aggregate with pairwise distinct
    keys; an [AddSyncedClient] on a key already present leaves the list of keys
    as it is and replaces the [Servers] field of that record. *)
Theorem synced_keys_stay_unique (c : Config) (ops : list SyncedOp) :
  NoDup (syncedKeys c) →
  NoDup (syncedKeys (fold_left applySyncedOp ops c)) ∧
  (∀ n b s, (n, b) ∈ syncedKeys c →
     syncedKeys (AddSyncedClient c n b s) = syncedKeys c ∧
     ∃ sc, GetSyncedClient (AddSyncedClient c n b s) n b = Some sc ∧
           SyncedClient.Servers sc = s).
Proof.
  intros Hnd. split; [|intros n b s; apply AddSyncedClient_existing].
  revert c Hnd. induction ops as [|op ops IH]; intros c Hnd; simpl; [done|].
  apply IH. destruct op; simpl.
  - by apply AddSyncedClient_NoDup.
  - by apply RemoveSyncedClient_NoDup.
Qed.

Lemma synced_keys_stay_unique_witness :
  NoDup (syncedKeys (fold_left applySyncedOp
           [OpAddSynced "zed" false None; OpAddSynced "gemini" true (Some ["fs"]);
            OpAddSynced "zed" false (Some ["api"]); OpRemoveSynced "gemini" false;
            OpRemoveSynced "gemini" true]
           (Config.mk (Some [fsServer; apiServer])
              (Some [SyncedClient.mk "gemini" false None]) "p"))).
Proof.
  apply (synced_keys_stay_unique
           (Config.mk (Some [fsServer; apiServer])
              (Some [SyncedClient.mk "gemini" false None]) "p")).
  unfold syncedKeys. simpl. apply NoDup_singleton.
Defined.

(** ** The central document: decoding what was encoded *)













(** ** Load and Save *)









(** C7. [LoadFromPath] on a missing file returns the empty aggregate bound to
    the path, with no error; on a file that does not decode it fails with a
    [ParseError]; on any other read failure it fails with an [IOError].
    [Load] on a machine whose home directory is known and which has neither
    a project file nor a global file returns the empty aggregate bound to the
    global path. *)
Theorem load_outcomes (w : World) (path : string) :
  (ReadFileJSON w path = ReadNotExist →
     LoadFromPath w path = Ok (Config.mk (Some []) None path)) ∧
  (∀ data, ReadFileJSON w path = ReadData data → UnmarshalConfig data = None →
     ∃ e, LoadFromPath w path = Err e ∧ kind e = ParseError) ∧
  (ReadFileJSON w path = ReadError →
     ∃ e, LoadFromPath w path = Err e ∧ kind e = IOError) ∧
  (∀ home, World.homeDir w = Some home → findConfigInParents w = None →
     ReadFileJSON w (Join home [".config"; "mcpr"; "config.json"]) = ReadNotExist →
     Load w = Ok (Config.mk (Some []) None (Join home [".config"; "mcpr"; "config.json"]))).
Proof.
  unfold LoadFromPath. repeat split.
  - by intros ->.
  - intros data -> ->. by exists ErrParseConfig.
  - intros ->. by exists ErrReadConfig.
  - intros home Hhome Hnone Hread. unfold Load, GetConfigPath, getGlobalConfigPath.
    rewrite Hnone, Hhome. simpl. by rewrite Hread.
Qed.

Lemma load_outcomes_witness :
  LoadFromPath freshWorld "/home/u/proj/mcpr.json"
    = Ok (Config.mk (Some []) None "/home/u/proj/mcpr.json") ∧
  (∃ e, LoadFromPath brokenWorld "/home/u/.config/mcpr/config.json" = Err e ∧
        kind e = ParseError) ∧
  (∃ e, LoadFromPath brokenWorld "/locked.json" = Err e ∧ kind e = IOError) ∧
  Load freshWorld = Ok (Config.mk (Some []) None "/home/u/.config/mcpr/config.json").
Proof.
  split; [|split; [|split]].
  - apply (proj1 (load_outcomes freshWorld "/home/u/proj/mcpr.json")). reflexivity.
  - apply (proj1 (proj2 (load_outcomes brokenWorld "/home/u/.config/mcpr/config.json"))
             Malformed); reflexivity.
  - apply (proj1 (proj2 (proj2 (load_outcomes brokenWorld "/locked.json")))). reflexivity.
  - apply (proj2 (proj2 (proj2 (load_outcomes freshWorld ""))) "/home/u"); reflexivity.
Defined.

(** ** The JSON adapters *)

Lemma putJSON_lookup w p v : World.jsonFiles (putJSON w p v) !! p = Some (Doc v).
Proof. unfold putJSON. simpl. apply lookup_insert_eq. Qed.

Lemma putJSON_lookup_ne w p v p' :
  p' ≠ p → World.jsonFiles (putJSON w p v) !! p' = World.jsonFiles w !! p'.
Proof. intros. unfold putJSON. simpl. by apply lookup_insert_ne. Qed.

Lemma putJSON_twice w p v : putJSON (putJSON w p v) p v = putJSON w p v.
Proof. unfold putJSON. simpl. by rewrite insert_insert_eq. Qed.

Lemma ReadFileJSON_putJSON w p v :
  p ∉ World.unreadable w → ReadFileJSON (putJSON w p v) p = ReadData (Doc v).
Proof.
  intros Hr. unfold ReadFileJSON. cbn [putJSON World.unreadable].
  rewrite decide_False by done. by rewrite putJSON_lookup.
Qed.

Lemma runMerge_unfold a servers path w :
  runMerge a servers path w =
    (do settings <- readSettings w path;
     do settings <- setKey settings (mcpKey a) (ownedValue a servers);
     saveSettingsFile w path settings).
Proof. by destruct a. Qed.

Lemma saveSettingsFile_ok w path settings :
  MkdirAllDir w path = true → canWrite w path = true →
  saveSettingsFile w path settings = Ok (putJSON w path (JObj settings)).
Proof. intros Hm Hw. unfold saveSettingsFile. by rewrite Hm, Hw. Qed.

Lemma saveSettingsFile_inv w path settings w' :
  saveSettingsFile w path settings = Ok w' →
  MkdirAllDir w path = true ∧ canWrite w path = true ∧
  w' = putJSON w path (JObj settings).
Proof.
  unfold saveSettingsFile.
  destruct (MkdirAllDir w path); simpl; [|discriminate].
  destruct (canWrite w path); simpl; [|discriminate].
  by intros [= <-].
Qed.



Lemma dom_fold_insert (entry : MCPServer → json) servers (m0 : gmap string json) :
  dom (fold_left (fun m s => <[MCPServer.Name s := entry s]> m) servers m0)
  = dom m0 ∪ serverNames servers.
Proof.
  unfold serverNames. revert m0. induction servers as [|s servers IH]; intros m0; simpl.
  - by rewrite (right_id_L ∅ (∪)).
  - rewrite IH, dom_insert_L.
    rewrite (comm_L (∪) {[MCPServer.Name s]} (dom m0)). by rewrite (assoc_L (∪)).
Qed.

Lemma dom_buildServers entry servers :
  dom (buildServers entry servers) = serverNames servers.
Proof.
  unfold buildServers. rewrite dom_fold_insert, dom_empty_L. by rewrite (left_id_L ∅ (∪)).
Qed.




(** A JSON adapter that ran once, and is run again on its own output with
    the same servers, writes the same document: the world stays as the first
    run left it. *)
Lemma json_adapter_idempotent (a : JSONAdapter) servers path w w1 :
  path ∉ World.unreadable w →
  runJSON a servers path w = Ok w1 →
  runJSON a servers path w1 = Ok w1.
Proof.
  intros Hr. destruct a as [a| |]; simpl.
  - rewrite !runMerge_unfold. intros Hrun.
    destruct (readSettings w path) as [[m|]| |]; simpl in Hrun; try discriminate.
    apply saveSettingsFile_inv in Hrun as (Hm & Hw & ->).
    unfold readSettings. rewrite ReadFileJSON_putJSON by done. simpl.
    rewrite insert_insert_eq. rewrite saveSettingsFile_ok by done.
    by rewrite putJSON_twice.
  - unfold syncToMCPConfig, saveMCPConfig.
    destruct (MkdirAllDir w path) eqn:Hm; simpl; [|discriminate].
    destruct (canWrite w path) eqn:Hw; simpl; [|discriminate].
    intros [= <-].
    assert (MkdirAllDir (putJSON w path
              (JObj {["mcpServers" :=
                 JObj (buildServers (λ s, encEntry (mcpConfigEntry s)) servers)]})) path
            = true) as -> by done.
    assert (canWrite (putJSON w path
              (JObj {["mcpServers" :=
                 JObj (buildServers (λ s, encEntry (mcpConfigEntry s)) servers)]})) path
            = true) as -> by done.
    simpl. by rewrite putJSON_twice.
  - unfold syncToVSCodeMCP. intros Hrun.
    apply saveSettingsFile_inv in Hrun as (Hm & Hw & ->).
    rewrite saveSettingsFile_ok by done. by rewrite putJSON_twice.
Qed.

(** ** Strings *)

Lemma sapp_cons c s t : String c s +:+ t = String c (s +:+ t).
Proof. reflexivity. Qed.

Lemma sapp_nil_l s : "" +:+ s = s.
Proof. reflexivity. Qed.

Lemma sapp_nil_r s : s +:+ "" = s.
Proof. induction s as [|c s IH]; [done|]. by rewrite sapp_cons, IH. Qed.

Lemma sapp_assoc a b c : (a +:+ b) +:+ c = a +:+ (b +:+ c).
Proof. induction a as [|x a IH]; [done|]. by rewrite !sapp_cons, IH. Qed.

Lemma slength_app a b : String.length (a +:+ b) = String.length a + String.length b.
Proof. induction a as [|x a IH]; [done|]. rewrite sapp_cons. simpl. by rewrite IH. Qed.

Lemma hasLF_app a b : hasLF (a +:+ b) = hasLF a || hasLF b.
Proof.
  induction a as [|x a IH]; [done|]. rewrite sapp_cons. simpl. rewrite IH.
  by rewrite orb_assoc.
Qed.

Lemma substring_0_app a b : String.substring 0 (String.length a) (a +:+ b) = a.
Proof.
  induction a as [|x a IH]; [by destruct b|]. rewrite sapp_cons. simpl. by rewrite IH.
Qed.

Lemma substring_skip_app a b n :
  String.substring (String.length a) n (a +:+ b) = String.substring 0 n b.
Proof. induction a as [|x a IH]; [done|]. rewrite sapp_cons. simpl. apply IH. Qed.

Lemma substring_0_all s : String.substring 0 (String.length s) s = s.
Proof. induction s as [|x s IH]; [done|]. simpl. by rewrite IH. Qed.

Lemma substring_split s n :
  n ≤ String.length s →
  s = String.substring 0 n s +:+ String.substring n (String.length s - n) s.
Proof.
  revert n. induction s as [|x s IH]; intros n Hn; simpl in *.
  - by destruct n.
  - destruct n as [|n]; simpl.
    + by rewrite substring_0_all.
    + rewrite sapp_cons. f_equal. apply IH. lia.
Qed.

Lemma tomlHasPrefix_spec s pre :
  tomlHasPrefix s pre = true ↔ ∃ rest, s = pre +:+ rest.
Proof.
  unfold tomlHasPrefix. rewrite andb_true_iff, Nat.leb_le, String.eqb_eq. split.
  - intros [Hlen Hsub]. exists (String.substring (String.length pre)
                                 (String.length s - String.length pre) s).
    rewrite <- Hsub at 1. by apply substring_split.
  - intros [rest ->]. rewrite slength_app. split; [lia|]. apply substring_0_app.
Qed.

Lemma tomlHasSuffix_spec s suffix :
  tomlHasSuffix s suffix = true ↔ ∃ front, s = front +:+ suffix.
Proof.
  unfold tomlHasSuffix. rewrite andb_true_iff, Nat.leb_le, String.eqb_eq. split.
  - intros [Hlen Hsub].
    exists (String.substring 0 (String.length s - String.length suffix) s).
    pose proof (substring_split s (String.length s - String.length suffix)) as Hs.
    replace (String.length s - (String.length s - String.length suffix))
      with (String.length suffix) in Hs by lia.
    rewrite Hsub in Hs. apply Hs. lia.
  - intros [front ->]. rewrite slength_app. split; [lia|].
    replace (String.length front + String.length suffix - String.length suffix)
      with (String.length front) by lia.
    rewrite substring_skip_app. apply substring_0_all.
Qed.

(** ** The TOML adapter: which lines are kept *)

Lemma filterLoop_step b line rest :
  filterLoop b (line :: rest)
  = (if nextState b line then [] else [line]) ++ filterLoop (nextState b line) rest.
Proof.
  unfold nextState. simpl. destruct (isMcpHeader line); [done|].
  by destruct b, (isHeader line).
Qed.





(** ** The TOML adapter: the text written *)

Lemma unlines_app a b : unlines (a ++ b) = unlines a +:+ unlines b.
Proof.
  induction a as [|l a IH]; [done|]. simpl. rewrite IH. by rewrite !sapp_assoc.
Qed.

Lemma fold_left_sections sections result :
  fold_left (fun result section => result +:+ section +:+ LF) sections result
  = result +:+ unlines sections.
Proof.
  revert result. induction sections as [|s sections IH]; intros result; simpl.
  - by rewrite sapp_nil_r.
  - rewrite IH. by rewrite !sapp_assoc.
Qed.

Lemma combine_spec kept sections :
  combine kept sections =
    match sections with
    | [] => tomlJoinLines kept
    | _ => tomlJoinLines kept +:+ separator (tomlJoinLines kept) +:+ unlines sections
    end.
Proof.
  unfold combine, separator. destruct sections as [|s sections]; [done|].
  cbn [length Nat.ltb Nat.leb]. rewrite fold_left_sections.
  destruct (String.eqb (tomlJoinLines kept) ""); cbn [negb andb]; [done|].
  destruct (tomlHasSuffix (tomlJoinLines kept) (LF +:+ LF)); cbn [negb]; [done|].
  destruct (tomlHasSuffix (tomlJoinLines kept) LF); by rewrite !sapp_assoc.
Qed.

(** With kept text, the sections start after an empty line. *)
Lemma separator_blank_line kept :
  kept ≠ "" → tomlHasSuffix (kept +:+ separator kept) (LF +:+ LF) = true.
Proof.
  intros Hne. unfold separator.
  destruct (String.eqb_spec kept "") as [|_]; [done|].
  destruct (tomlHasSuffix kept (LF +:+ LF)) eqn:H2; [by rewrite sapp_nil_r|].
  destruct (tomlHasSuffix kept LF) eqn:H1; apply tomlHasSuffix_spec.
  - apply tomlHasSuffix_spec in H1 as [front ->]. exists front. by rewrite sapp_assoc.
  - by exists kept.
Qed.

Lemma codexSection_lines quote server :
  codexSection quote server = unlines (sectionLines quote server).
Proof.
  unfold codexSection, sectionLines, sectionHeader, inlineTable, tableLine, argsLine.
  destruct (isHTTP server).
  - destruct (0 <? maplen (MCPServer.Headers server)); simpl;
      rewrite ?sapp_assoc, ?sapp_nil_r; done.
  - destruct (0 <? len (MCPServer.Args server)),
      (0 <? maplen (MCPServer.Env server)); simpl;
      rewrite ?sapp_assoc, ?sapp_nil_r; done.
Qed.


Lemma codexRewrite_spec quote servers existingContent :
  codexRewrite quote servers existingContent =
    combine (filterLoop false (tomlSplitLines existingContent))
      ((fun s => unlines (sectionLines quote s)) <$> servers).
Proof.
  unfold codexRewrite. f_equal. apply list_fmap_ext. intros _ s _.
  apply codexSection_lines.
Qed.



(** The second scenario of the specification: the [model] line is kept and a
    section for [api] follows an empty line. *)
Lemma codex_scenario :
  codexRewrite strconvQuote [apiServer] (modelLine +:+ LF) =
    unlines [modelLine; "";
             "[mcp_servers.api]";
             "url = " +:+ strconvQuote "https://x/mcp";
             "http_headers = { " +:+ strconvQuote "Authorization" +:+ " = "
               +:+ strconvQuote "Bearer t" +:+ " }";
             ""].
Proof. vm_compute. reflexivity. Qed.


(** ** The TOML adapter: splitting and joining *)

Lemma tomlSplitLines_loop s : tomlSplitLines s = splitLoop "" s.
Proof. unfold tomlSplitLines. by destruct s. Qed.

Lemma splitLoop_app_noLF cur a b :
  hasLF a = false → splitLoop cur (a +:+ b) = splitLoop (cur +:+ a) b.
Proof.
  revert cur. induction a as [|c a IH]; intros cur Ha.
  - by rewrite sapp_nil_r.
  - simpl in Ha. apply orb_false_iff in Ha as [Hc Ha].
    rewrite sapp_cons. simpl. rewrite Hc. rewrite IH by done.
    by rewrite sapp_assoc.
Qed.

Lemma splitLoop_LF cur b : splitLoop cur (LF +:+ b) = cur :: splitLoop "" b.
Proof. reflexivity. Qed.

Lemma splitLoop_line cur line rest :
  hasLF line = false →
  splitLoop cur (line +:+ LF +:+ rest) = (cur +:+ line) :: splitLoop "" rest.
Proof. intros Hl. by rewrite splitLoop_app_noLF, splitLoop_LF. Qed.

Lemma splitLoop_unlines lines rest :
  Forall (fun l => hasLF l = false) lines →
  splitLoop "" (unlines lines +:+ rest) = lines ++ splitLoop "" rest.
Proof.
  induction 1 as [|l lines Hl _ IH]; [done|].
  simpl. rewrite !sapp_assoc. rewrite splitLoop_line by done. by rewrite IH.
Qed.

Lemma tomlSplitLines_unlines lines :
  Forall (fun l => hasLF l = false) lines → tomlSplitLines (unlines lines) = lines.
Proof.
  intros H. rewrite tomlSplitLines_loop.
  rewrite <- (sapp_nil_r (unlines lines)), splitLoop_unlines by done.
  simpl. by rewrite app_nil_r.
Qed.

Lemma unlines_splitLoop cur t : unlines (splitLoop cur (t +:+ LF)) = cur +:+ t +:+ LF.
Proof.
  revert cur. induction t as [|c t IH]; intros cur; [done|].
  rewrite sapp_cons. simpl. destruct (Ascii.eqb_spec c "010"%char) as [->|_].
  - simpl. by rewrite IH.
  - rewrite IH. by rewrite sapp_assoc.
Qed.

Lemma splitLoop_noLF cur t :
  hasLF cur = false → Forall (fun l => hasLF l = false) (splitLoop cur t).
Proof.
  revert cur. induction t as [|c t IH]; intros cur Hcur; simpl.
  - destruct (String.eqb cur ""); [constructor|]. by constructor.
  - destruct (Ascii.eqb c "010"%char) eqn:Hc.
    + constructor; [done|]. by apply IH.
    + apply IH. rewrite hasLF_app, Hcur. simpl. by rewrite Hc.
Qed.

(** [joinLoop] from a later index: the accumulator, then a line feed before
    every line. *)
Lemma joinLoop_acc result i lines :
  joinLoop result (S i) lines = result +:+ joinLoop "" 1 lines.
Proof.
  revert result i. induction lines as [|l lines IH]; intros result i; simpl.
  - by rewrite sapp_nil_r.
  - rewrite (IH ((result +:+ LF) +:+ l)), (IH (LF +:+ l)). by rewrite !sapp_assoc.
Qed.

Lemma joinLoop_tail_cons l lines :
  joinLoop "" 1 (l :: lines) = LF +:+ l +:+ joinLoop "" 1 lines.
Proof. simpl. rewrite joinLoop_acc. by rewrite sapp_assoc. Qed.

Lemma tomlJoinLines_cons l lines :
  tomlJoinLines (l :: lines) = l +:+ joinLoop "" 1 lines.
Proof. unfold tomlJoinLines. simpl. by rewrite joinLoop_acc. Qed.

Lemma joinLoop_tail_app a b :
  joinLoop "" 1 (a ++ b) = joinLoop "" 1 a +:+ joinLoop "" 1 b.
Proof.
  induction a as [|l a IH]; [done|].
  rewrite <- app_comm_cons, !joinLoop_tail_cons, IH. by rewrite !sapp_assoc.
Qed.

Lemma tomlJoinLines_app a b :
  a ≠ [] → tomlJoinLines (a ++ b) = tomlJoinLines a +:+ joinLoop "" 1 b.
Proof.
  destruct a as [|l a]; [done|]. intros _.
  rewrite <- app_comm_cons, !tomlJoinLines_cons, joinLoop_tail_app.
  by rewrite sapp_assoc.
Qed.

(** Splitting joined lines gives back lines among them. *)
Lemma splitLoop_join cur l lines x :
  Forall (fun l => hasLF l = false) (l :: lines) →
  x ∈ splitLoop cur (l +:+ joinLoop "" 1 lines) →
  x = cur +:+ l ∨ x ∈ lines.
Proof.
  revert cur l. induction lines as [|l2 lines IH]; intros cur l Hall Hx.
  - apply Forall_cons in Hall as [Hl _].
    rewrite splitLoop_app_noLF in Hx by done. simpl in Hx.
    destruct (String.eqb (cur +:+ l) ""); [by apply elem_of_nil in Hx|].
    apply list_elem_of_singleton in Hx. by left.
  - apply Forall_cons in Hall as [Hl Hall].
    rewrite joinLoop_tail_cons, splitLoop_line in Hx by done.
    apply elem_of_cons in Hx as [->|Hx]; [by left|]. right.
    apply IH in Hx; [|done]. destruct Hx as [->|Hx]; [left|by right].
Qed.

Lemma tomlSplitLines_join lines x :
  Forall (fun l => hasLF l = false) lines →
  x ∈ tomlSplitLines (tomlJoinLines lines) → x ∈ lines.
Proof.
  intros Hall. rewrite tomlSplitLines_loop. destruct lines as [|l lines].
  - intros Hx. by apply elem_of_nil in Hx.
  - rewrite tomlJoinLines_cons. intros Hx.
    apply splitLoop_join in Hx; [|done]. destruct Hx as [->|Hx]; [left|by right].
Qed.

(** ** The TOML adapter: the owned headers of the text written *)

Lemma filterLoop_elem b lines x :
  x ∈ filterLoop b lines → x ∈ lines ∧ isMcpHeader x = false.
Proof.
  revert b. induction lines as [|l lines IH]; intros b.
  - intros Hx. by apply elem_of_nil in Hx.
  - rewrite filterLoop_step. destruct (nextState b l) eqn:Hnext.
    + intros Hx. apply IH in Hx as [? ?]. split; [by right|done].
    + intros Hx. apply elem_of_cons in Hx as [->|Hx].
      * split; [left|]. unfold nextState in Hnext.
        by apply orb_false_iff in Hnext as [? _].
      * apply IH in Hx as [? ?]. split; [by right|done].
Qed.

Lemma trimRight_keeps_end a c :
  isBlank c = false → trimRight (a +:+ String c "") = a +:+ String c "".
Proof.
  intros Hc. induction a as [|x a IH].
  - simpl. by rewrite Hc.
  - rewrite sapp_cons. simpl. rewrite IH. by destruct a.
Qed.

Lemma isMcpHeader_sectionHeader server : isMcpHeader (sectionHeader server) = true.
Proof.
  unfold isMcpHeader, sectionHeader, tomlTrimWhitespace.
  assert (trimLeft ("[mcp_servers." +:+ MCPServer.Name server +:+ "]")
          = "[mcp_servers." +:+ MCPServer.Name server +:+ "]") as -> by done.
  rewrite <- sapp_assoc. rewrite trimRight_keeps_end by done.
  apply tomlHasPrefix_spec. eexists. by rewrite sapp_assoc.
Qed.

Lemma isMcpHeader_first_byte c rest :
  isBlank c = false → c ≠ "["%char → isMcpHeader (String c rest) = false.
Proof.
  intros Hc Hne. unfold isMcpHeader, tomlTrimWhitespace. simpl. rewrite Hc.
  apply not_true_is_false. intros Hp. apply tomlHasPrefix_spec in Hp as [r Hr].
  simpl in Hr. destruct (trimRight rest); [rewrite Hc in Hr|]; injection Hr; intros; done.
Qed.


Lemma filter_skip {A} (f : A → bool) x l :
  f x = false → List.filter f (x :: l) = List.filter f l.
Proof. intros H. simpl. by rewrite H. Qed.

Section QuoteIsOneLine.

Variable quote : string → string.
Hypothesis quote_noLF : ∀ s, hasLF (quote s) = false.

Lemma inlinePairs_noLF i keys m : hasLF (inlinePairs quote i keys m) = false.
Proof.
  revert i. induction keys as [|k keys IH]; intros i; [done|].
  simpl. rewrite !hasLF_app, !quote_noLF, IH. by destruct (0 <? i).
Qed.

Lemma quotedArgs_noLF i args : hasLF (quotedArgs quote i args) = false.
Proof.
  revert i. induction args as [|a args IH]; intros i; [done|].
  simpl. rewrite !hasLF_app, quote_noLF, IH. by destruct (0 <? i).
Qed.

Lemma sectionLines_noLF server :
  hasLF (MCPServer.Name server) = false →
  Forall (fun l => hasLF l = false) (sectionLines quote server).
Proof.
  intros Hname. unfold sectionLines, sectionHeader, tableLine, argsLine.
  assert (hasLF ("[mcp_servers." +:+ MCPServer.Name server +:+ "]") = false) as Hh.
  { by rewrite !hasLF_app, Hname. }
  destruct (isHTTP server).
  - constructor; [done|]. constructor; [by rewrite hasLF_app, quote_noLF|].
    destruct (0 <? maplen (MCPServer.Headers server)); [|constructor].
    constructor; [|constructor]. by rewrite !hasLF_app, inlinePairs_noLF.
  - constructor; [done|]. constructor; [by rewrite hasLF_app, quote_noLF|].
    apply Forall_app. split.
    + destruct (0 <? len (MCPServer.Args server)); [|constructor].
      constructor; [|constructor]. by rewrite !hasLF_app, quotedArgs_noLF.
    + destruct (0 <? maplen (MCPServer.Env server)); [|constructor].
      constructor; [|constructor]. by rewrite !hasLF_app, inlinePairs_noLF.
Qed.



Lemma blocks_lines (servers : list MCPServer) :
  unlines ((fun s => unlines (sectionLines quote s)) <$> servers)
  = unlines (concat ((fun s => sectionLines quote s ++ [""]) <$> servers)).
Proof.
  induction servers as [|s servers IH]; [done|].
  rewrite !fmap_cons. cbn [concat]. rewrite !unlines_app, <- IH.
  cbn [unlines fold_right]. by rewrite !sapp_assoc.
Qed.

Lemma blocks_noLF (servers : list MCPServer) :
  Forall (fun s => hasLF (MCPServer.Name s) = false) servers →
  Forall (fun l => hasLF l = false)
    (concat ((fun s => sectionLines quote s ++ [""]) <$> servers)).
Proof.
  induction 1 as [|s servers Hs _ IH]; [constructor|].
  rewrite fmap_cons. cbn [concat]. apply Forall_app. split; [|done].
  apply Forall_app. split; [by apply sectionLines_noLF|]. by constructor.
Qed.


End QuoteIsOneLine.

Lemma filter_none {A} (f : A → bool) (l : list A) :
  (∀ x, x ∈ l → f x = false) → List.filter f l = [].
Proof.
  induction l as [|x l IH]; intros H; [done|].
  rewrite filter_skip by (apply H; left). apply IH. intros y Hy. apply H. by right.
Qed.

(** The kept text with its separator is a sequence of whole lines, none of
    them an owned header. *)
Lemma kept_prefix_lines (kept : list string) :
  Forall (fun l => hasLF l = false) kept →
  (∀ x, x ∈ kept → isMcpHeader x = false) →
  ∃ lines, tomlJoinLines kept +:+ separator (tomlJoinLines kept) = unlines lines ∧
           Forall (fun l => hasLF l = false) lines ∧
           (∀ x, x ∈ lines → isMcpHeader x = false).
Proof.
  intros Hlf Hnh.
  destruct (String.eqb_spec (tomlJoinLines kept) "") as [Hempty|Hne].
  - exists []. rewrite Hempty. split; [done|]. split; [constructor|].
    intros x Hx. by apply elem_of_nil in Hx.
  - assert (kept ≠ []) as Hkept by (by intros ->).
    assert (∃ pads, tomlJoinLines kept +:+ separator (tomlJoinLines kept)
                    = tomlJoinLines (kept ++ pads) ∧
                    Forall (fun l => l = "") pads) as (pads & Hpads & Hblank).
    { unfold separator. destruct (String.eqb (tomlJoinLines kept) "").
      - exists []. by rewrite sapp_nil_r, app_nil_r.
      - destruct (tomlHasSuffix (tomlJoinLines kept) (LF +:+ LF)).
        + exists []. by rewrite sapp_nil_r, app_nil_r.
        + destruct (tomlHasSuffix (tomlJoinLines kept) LF).
          * exists [""]. rewrite tomlJoinLines_app by done. split; [done|].
            by constructor.
          * exists [""; ""]. rewrite tomlJoinLines_app by done. split; [done|].
            by repeat constructor. }
    pose proof (separator_blank_line _ Hne) as Hend.
    apply tomlHasSuffix_spec in Hend as [front Hfront].
    exists (splitLoop "" (tomlJoinLines kept +:+ separator (tomlJoinLines kept))).
    split; [|split].
    + rewrite Hfront, <- sapp_assoc. by rewrite unlines_splitLoop.
    + by apply splitLoop_noLF.
    + intros x Hx. rewrite Hpads, <- tomlSplitLines_loop in Hx.
      apply tomlSplitLines_join in Hx.
      * apply elem_of_app in Hx as [Hx|Hx]; [by apply Hnh|].
        rewrite Forall_forall in Hblank. by rewrite (Hblank x Hx).
      * apply Forall_app. split; [done|].
        eapply Forall_impl; [exact Hblank|]. by intros l ->.
Qed.

Lemma kept_lines_facts content :
  Forall (fun l => hasLF l = false) (filterLoop false (tomlSplitLines content)) ∧
  (∀ x, x ∈ filterLoop false (tomlSplitLines content) → isMcpHeader x = false).
Proof.
  split.
  - apply Forall_forall. intros x Hx. apply filterLoop_elem in Hx as [Hx _].
    rewrite tomlSplitLines_loop in Hx.
    pose proof (splitLoop_noLF "" content eq_refl) as Hall.
    rewrite Forall_forall in Hall. by apply Hall.
  - intros x Hx. by apply filterLoop_elem in Hx as [_ ?].
Qed.


Lemma quoteByte_noLF c : hasLF (quoteByte c) = false.
Proof. destruct c as [[] [] [] [] [] [] [] []]; reflexivity. Qed.

Lemma strconvQuote_noLF s : hasLF (strconvQuote s) = false.
Proof.
  unfold strconvQuote. simpl. rewrite hasLF_app. simpl. rewrite orb_false_r.
  induction s as [|c s IH]; [done|]. simpl. by rewrite hasLF_app, quoteByte_noLF.
Qed.





(** ** The TOML adapter on a file it wrote itself *)

Lemma isHeader_first_byte c rest :
  isBlank c = false → c ≠ "["%char → isHeader (String c rest) = false.
Proof.
  intros Hc Hne. unfold isHeader, tomlTrimWhitespace. simpl. rewrite Hc.
  apply not_true_is_false. intros Hp. apply tomlHasPrefix_spec in Hp as [r Hr].
  simpl in Hr. destruct (trimRight rest); [rewrite Hc in Hr|]; injection Hr; intros; done.
Qed.

Lemma filterLoop_inside lines more :
  (∀ l, l ∈ lines → isMcpHeader l = false ∧ isHeader l = false) →
  filterLoop true (lines ++ more) = filterLoop true more.
Proof.
  induction lines as [|l lines IH]; intros H; [done|].
  rewrite <- app_comm_cons, filterLoop_step. unfold nextState.
  destruct (H l) as [-> ->]; [left|]. simpl. apply IH. intros l' Hl'. apply H. by right.
Qed.

Lemma sectionLines_body quote server :
  ∃ body, sectionLines quote server ++ [""] = sectionHeader server :: body ∧
          ∀ l, l ∈ body → isMcpHeader l = false ∧ isHeader l = false.
Proof.
  assert (∀ c rest, isBlank c = false → c ≠ "["%char →
                    isMcpHeader (String c rest) = false ∧ isHeader (String c rest) = false)
    as Hletter.
  { intros c rest ? ?. split; [by apply isMcpHeader_first_byte|by apply isHeader_first_byte]. }
  unfold sectionLines, tableLine, argsLine. destruct (isHTTP server).
  - eexists. split; [rewrite <- app_assoc, <- !app_comm_cons; reflexivity|].
    intros l Hl. apply elem_of_cons in Hl as [->|Hl]; [by apply (Hletter "u"%char)|].
    rewrite app_nil_l in Hl. apply elem_of_app in Hl as [Hl|Hl].
    + destruct (0 <? maplen (MCPServer.Headers server)); [|by apply elem_of_nil in Hl].
      apply list_elem_of_singleton in Hl as ->. by apply (Hletter "h"%char).
    + apply list_elem_of_singleton in Hl as ->. done.
  - eexists. split; [rewrite <- !app_assoc, <- !app_comm_cons; reflexivity|].
    intros l Hl. apply elem_of_cons in Hl as [->|Hl]; [by apply (Hletter "c"%char)|].
    rewrite app_nil_l in Hl. apply elem_of_app in Hl as [Hl|Hl].
    + destruct (0 <? len (MCPServer.Args server)); [|by apply elem_of_nil in Hl].
      apply list_elem_of_singleton in Hl as ->. by apply (Hletter "a"%char).
    + apply elem_of_app in Hl as [Hl|Hl].
      * destruct (0 <? maplen (MCPServer.Env server)); [|by apply elem_of_nil in Hl].
        apply list_elem_of_singleton in Hl as ->. by apply (Hletter "e"%char).
      * apply list_elem_of_singleton in Hl as ->. done.
Qed.

Lemma filterLoop_blocks quote (servers : list MCPServer) b :
  filterLoop b (concat ((fun s => sectionLines quote s ++ [""]) <$> servers)) = [].
Proof.
  revert b. induction servers as [|s servers IH]; intros b; [by destruct b|].
  rewrite fmap_cons. cbn [concat].
  destruct (sectionLines_body quote s) as (body & -> & Hbody).
  rewrite <- app_comm_cons, filterLoop_step. unfold nextState.
  rewrite isMcpHeader_sectionHeader. simpl.
  rewrite filterLoop_inside by done. apply IH.
Qed.

(** Run on a file that does not exist yet and then on its own output, with
    the same servers, the TOML adapter writes the same text twice: the case
    the repository tests. *)
Lemma codexRewrite_idempotent_fresh quote servers :
  (∀ s, hasLF (quote s) = false) →
  Forall (fun s => hasLF (MCPServer.Name s) = false) servers →
  codexRewrite quote servers (codexRewrite quote servers "")
  = codexRewrite quote servers "".
Proof.
  intros Hq Hnames.
  assert (codexRewrite quote servers ""
          = unlines (concat ((fun s => sectionLines quote s ++ [""]) <$> servers))) as Hfirst.
  { rewrite codexRewrite_spec, combine_spec. simpl.
    destruct servers as [|s servers]; [done|].
    set (f := fun s0 : MCPServer => unlines (sectionLines quote s0)).
    rewrite (fmap_cons f). cbv iota. rewrite <- (fmap_cons f). subst f.
    by rewrite (blocks_lines quote). }
  rewrite Hfirst at 1. rewrite codexRewrite_spec.
  rewrite tomlSplitLines_unlines by (by apply blocks_noLF).
  rewrite filterLoop_blocks. symmetry. apply codexRewrite_spec.
Qed.

(** ** Idempotence *)

(** C1 at an input on which the TOML adapter is not idempotent.  The Codex
    file holds the [model] line and three empty lines.  The first sync
    leaves two empty lines before the section, the second sync one: the two
    files differ. *)
Theorem codex_second_sync_differs :
  ∃ w1 w2,
    syncToCodex strconvQuote [fsServer] "/home/u/.codex/config.toml" codexWorld = Ok w1 ∧
    syncToCodex strconvQuote [fsServer] "/home/u/.codex/config.toml" w1 = Ok w2 ∧
    World.textFiles w1 !! "/home/u/.codex/config.toml" =
      Some (unlines [modelLine; ""; ""; "[mcp_servers.fs]";
                     "command = " +:+ strconvQuote "npx";
                     "args = [" +:+ strconvQuote "-y" +:+ ", " +:+ strconvQuote "pkg"
                       +:+ ", " +:+ strconvQuote "/tmp" +:+ "]";
                     ""]) ∧
    World.textFiles w2 !! "/home/u/.codex/config.toml" =
      Some (unlines [modelLine; ""; "[mcp_servers.fs]";
                     "command = " +:+ strconvQuote "npx";
                     "args = [" +:+ strconvQuote "-y" +:+ ", " +:+ strconvQuote "pkg"
                       +:+ ", " +:+ strconvQuote "/tmp" +:+ "]";
                     ""]) ∧
    World.textFiles w1 !! "/home/u/.codex/config.toml"
      ≠ World.textFiles w2 !! "/home/u/.codex/config.toml".
Proof.
  eexists _, _. split; [vm_compute; reflexivity|].
  split; [vm_compute; reflexivity|]. split; [vm_compute; reflexivity|].
  split; [vm_compute; reflexivity|]. vm_compute. discriminate.
Qed.

(** ** resyncAll *)


(** C4 at the inputs on which the code departs from it.  With the second
    record naming only the missing server, the first and third records are
    synced and two failures are reported for the second: the missing server,
    and no servers to sync.  With the second record naming a server of the
    store as well, all three records are counted as synced, the second with
    what is left of its list, and one failure is still reported. *)
Theorem resyncAll_missing_server :
  (∃ w, resyncAll strconvQuote staleConfig freshWorld
          = Finished w 2 [FailServerNotFound "zed" "gone"; FailNoServers "zed"] ∧
        World.jsonFiles w !! "/home/u/.config/zed/settings.json" = None ∧
        is_Some (World.jsonFiles w !! "/home/u/.gemini/settings.json") ∧
        is_Some (World.textFiles w !! "/home/u/.codex/config.toml")) ∧
  (∃ w, resyncAll strconvQuote halfStaleConfig freshWorld
          = Finished w 3 [FailServerNotFound "zed" "gone"] ∧
        is_Some (World.jsonFiles w !! "/home/u/.config/zed/settings.json")).
Proof.
  split.
  - eexists. split; [vm_compute; reflexivity|]. split; [vm_compute; reflexivity|].
    split; vm_compute; by eexists.
  - eexists. split; [vm_compute; reflexivity|]. vm_compute. by eexists.
Qed.






(** * Further properties of the code *)

(** ** Config store: removing and finding servers *)

Lemma removeFirstServer_None l name :
  removeFirstServer l name = None ↔ ∀ s, s ∈ l → MCPServer.Name s ≠ name.
Proof.
  induction l as [|s l IH]; simpl.
  - split; [|done]. intros _ s Hs. by apply elem_of_nil in Hs.
  - destruct (String.eqb_spec (MCPServer.Name s) name) as [Heq|Hne].
    + split; [discriminate|]. intros H. exfalso. apply (H s); [left|done].
    + destruct (removeFirstServer l name) as [l'|]; simpl.
      * split; [discriminate|]. intros H. assert (Some l' = None) as Hn; [|discriminate].
        apply IH. intros x Hx. apply H. by right.
      * split; [|done]. intros _ x Hx. apply elem_of_cons in Hx as [->|Hx]; [done|].
        by apply IH.
Qed.

Lemma removeFirstServer_split l1 s l2 :
  (∀ x, x ∈ l1 → MCPServer.Name x ≠ MCPServer.Name s) →
  removeFirstServer (l1 ++ s :: l2) (MCPServer.Name s) = Some (l1 ++ l2).
Proof.
  induction l1 as [|x l1 IH]; intros H; simpl.
  - by rewrite String.eqb_refl.
  - destruct (String.eqb_spec (MCPServer.Name x) (MCPServer.Name s)) as [Heq|_].
    + exfalso. apply (H x); [left|done].
    + rewrite IH; [done|]. intros y Hy. apply H. by right.
Qed.

(** X1.  [RemoveServer] on a name that no record carries fails with [NotFound] and
    leaves the aggregate as it was.  Otherwise it takes out the first record
    that carries the name and keeps all the others in their order. *)
Theorem RemoveServer_first_match (c : Config) (name : string) :
  ((∀ s, s ∈ elems (Config.Servers c) → MCPServer.Name s ≠ name) →
     ∃ e, RemoveServer c name = (c, Some e) ∧ kind e = NotFound) ∧
  (∀ l1 s l2,
     elems (Config.Servers c) = l1 ++ s :: l2 →
     MCPServer.Name s = name →
     (∀ x, x ∈ l1 → MCPServer.Name x ≠ name) →
     RemoveServer c name = (withServers c (Some (l1 ++ l2)), None)).
Proof.
  unfold RemoveServer. split.
  - intros H. apply removeFirstServer_None in H. rewrite H. by eexists.
  - intros l1 s l2 Hsplit <- Hl1. by rewrite Hsplit, removeFirstServer_split.
Qed.

Lemma RemoveServer_first_match_witness :
  (∃ e, RemoveServer (Config.mk (Some [fsServer; apiServer]) None "p") "gone"
        = (Config.mk (Some [fsServer; apiServer]) None "p", Some e) ∧ kind e = NotFound) ∧
  RemoveServer (Config.mk (Some [fsServer; apiServer; bareServer]) None "p") "fs"
  = (Config.mk (Some [apiServer; bareServer]) None "p", None).
Proof.
  split.
  - apply (proj1 (RemoveServer_first_match _ "gone")).
    intros s Hs. simpl in Hs. apply elem_of_cons in Hs as [->|Hs]; [done|].
    apply list_elem_of_singleton in Hs as ->. done.
  - apply (proj2 (RemoveServer_first_match
                    (Config.mk (Some [fsServer; apiServer; bareServer]) None "p") "fs")
             [] fsServer [apiServer; bareServer]); [done|done|].
    intros x Hx. by apply elem_of_nil in Hx.
Defined.

Lemma findServer_app l1 l2 name :
  findServer (l1 ++ l2) name =
    match findServer l1 name with Some s => Some s | None => findServer l2 name end.
Proof.
  induction l1 as [|s l1 IH]; [done|]. simpl.
  by destruct (String.eqb (MCPServer.Name s) name).
Qed.

Lemma findServer_None l name :
  findServer l name = None ↔ ∀ s, s ∈ l → MCPServer.Name s ≠ name.
Proof.
  induction l as [|s l IH]; simpl.
  - split; [|done]. intros _ s Hs. by apply elem_of_nil in Hs.
  - destruct (String.eqb_spec (MCPServer.Name s) name) as [Heq|Hne].
    + split; [discriminate|]. intros H. exfalso. apply (H s); [left|done].
    + rewrite IH. split.
      * intros H x Hx. apply elem_of_cons in Hx as [->|Hx]; [done|]. by apply H.
      * intros H x Hx. apply H. by right.
Qed.

(** X2.  After [AddServer] accepted a record, [GetServer] finds that record under
    its name, and finds under every other name what it found before. *)
Theorem GetServer_after_AddServer (c c' : Config) (server : MCPServer) :
  AddServer c server = (c', None) →
  GetServer c' (MCPServer.Name server) = Ok server ∧
  (∀ name, name ≠ MCPServer.Name server → GetServer c' name = GetServer c name).
Proof.
  unfold AddServer.
  destruct (nameTaken (elems (Config.Servers c)) (MCPServer.Name server)) eqn:Htaken;
    [discriminate|].
  intros [= <-]. pose proof (proj1 (nameTaken_false _ _) Htaken) as Hfresh.
  clear Htaken. pose proof (proj2 (findServer_None _ _) Hfresh) as Htaken.
  unfold GetServer, withServers, append. simpl. split.
  - rewrite findServer_app, Htaken. simpl. by rewrite String.eqb_refl.
  - intros name Hne. rewrite findServer_app. simpl.
    destruct (String.eqb_spec (MCPServer.Name server) name) as [Heq|_]; [congruence|].
    by destruct (findServer (elems (Config.Servers c)) name).
Qed.

Lemma GetServer_after_AddServer_witness :
  GetServer (Config.mk (Some [fsServer; apiServer]) None "p") "api" = Ok apiServer ∧
  GetServer (Config.mk (Some [fsServer; apiServer]) None "p") "fs"
  = GetServer (Config.mk (Some [fsServer]) None "p") "fs".
Proof.
  destruct (GetServer_after_AddServer (Config.mk (Some [fsServer]) None "p")
              (Config.mk (Some [fsServer; apiServer]) None "p") apiServer eq_refl)
    as [Hget Hother].
  split; [exact Hget|]. apply Hother. discriminate.
Defined.

Lemma removeFirstServer_sublist l name l' :
  removeFirstServer l name = Some l' →
  sublist (MCPServer.Name <$> l') (MCPServer.Name <$> l).
Proof.
  revert l'. induction l as [|s l IH]; intros l'; simpl; [discriminate|].
  destruct (String.eqb (MCPServer.Name s) name).
  - intros [= <-]. by apply sublist_cons.
  - destruct (removeFirstServer l name) as [l0|]; simpl; [|discriminate].
    intros [= <-]. rewrite !fmap_cons. apply sublist_skip. by apply IH.
Qed.

Lemma AddServer_names_NoDup c server :
  NoDup (serverNameList c) → NoDup (serverNameList (fst (AddServer c server))).
Proof.
  unfold AddServer, serverNameList. intros Hnd.
  destruct (nameTaken (elems (Config.Servers c)) (MCPServer.Name server)) eqn:Htaken;
    [done|].
  pose proof (proj1 (nameTaken_false _ _) Htaken) as Hfresh. simpl.
  rewrite fmap_app. apply NoDup_app. split; [done|]. split; [|apply NoDup_singleton].
  intros n Hn Hin. simpl in Hin. apply list_elem_of_singleton in Hin as ->.
  apply list_elem_of_fmap in Hn as (s & Heq & Hs). by apply (Hfresh s).
Qed.

Lemma RemoveServer_names_NoDup c name :
  NoDup (serverNameList c) → NoDup (serverNameList (fst (RemoveServer c name))).
Proof.
  unfold RemoveServer, serverNameList. intros Hnd.
  destruct (removeFirstServer (elems (Config.Servers c)) name) as [l|] eqn:Hr; [|done].
  simpl. eapply sublist_NoDup; [exact Hnd|]. by eapply removeFirstServer_sublist.
Qed.

(** X3.  Server names stay unique: from an aggregate in which no two records
    share a name, no sequence of [AddServer] and [RemoveServer] calls, failed
    ones included, leads to an aggregate in which two records do. *)
Theorem server_names_stay_unique (c : Config) (ops : list ServerOp) :
  NoDup (serverNameList c) →
  NoDup (serverNameList (fold_left applyServerOp ops c)).
Proof.
  revert c. induction ops as [|op ops IH]; intros c Hnd; [done|].
  simpl. apply IH. destruct op; simpl.
  - by apply AddServer_names_NoDup.
  - by apply RemoveServer_names_NoDup.
Qed.

Lemma server_names_stay_unique_witness :
  NoDup (serverNameList
           (fold_left applyServerOp
              [OpAddServer apiServer; OpAddServer fsServer; OpRemoveServer "fs";
               OpAddServer bareServer; OpRemoveServer "gone"]
              (Config.mk (Some [fsServer]) None "p"))).
Proof.
  apply (server_names_stay_unique (Config.mk (Some [fsServer]) None "p")).
  apply NoDup_singleton.
Defined.

Lemma removeFirstServer_find l name l' other :
  removeFirstServer l name = Some l' → other ≠ name →
  findServer l' other = findServer l other.
Proof.
  revert l'. induction l as [|s l IH]; intros l'; simpl; [discriminate|].
  destruct (String.eqb_spec (MCPServer.Name s) name) as [Heq|Hne].
  - intros [= <-] Hother.
    destruct (String.eqb_spec (MCPServer.Name s) other) as [Heq'|_]; [congruence|done].
  - destruct (removeFirstServer l name) as [l0|]; simpl; [|discriminate].
    intros [= <-] Hother. simpl.
    destruct (String.eqb (MCPServer.Name s) other); [done|]. by apply IH.
Qed.

Lemma removeFirstServer_gone l name l' :
  NoDup (MCPServer.Name <$> l) → removeFirstServer l name = Some l' →
  findServer l' name = None.
Proof.
  revert l'. induction l as [|s l IH]; intros l'; simpl; [discriminate|].
  rewrite NoDup_cons. intros [Hnotin Hnd].
  destruct (String.eqb_spec (MCPServer.Name s) name) as [Heq|Hne].
  - intros [= <-]. apply findServer_None. intros x Hx Hname. apply Hnotin.
    apply list_elem_of_fmap. exists x. split; [congruence|done].
  - destruct (removeFirstServer l name) as [l0|]; simpl; [|discriminate].
    intros [= <-]. simpl.
    destruct (String.eqb_spec (MCPServer.Name s) name) as [Heq|_]; [done|]. by apply IH.
Qed.

(** X4.  In an aggregate with unique server names, a server that [RemoveServer]
    took out is not found any more, and every other name is found as
    before. *)
Theorem GetServer_after_RemoveServer (c c' : Config) (name : string) :
  NoDup (serverNameList c) →
  RemoveServer c name = (c', None) →
  (∃ e, GetServer c' name = Err e ∧ kind e = NotFound) ∧
  (∀ other, other ≠ name → GetServer c' other = GetServer c other).
Proof.
  unfold RemoveServer, serverNameList. intros Hnd.
  destruct (removeFirstServer (elems (Config.Servers c)) name) as [l|] eqn:Hr;
    [|discriminate].
  intros [= <-]. unfold GetServer. simpl. split.
  - rewrite (removeFirstServer_gone _ _ _ Hnd Hr). by eexists.
  - intros other Hne. by rewrite (removeFirstServer_find _ _ _ _ Hr Hne).
Qed.

Lemma GetServer_after_RemoveServer_witness :
  (∃ e, GetServer (Config.mk (Some [apiServer]) None "p") "fs" = Err e ∧
        kind e = NotFound) ∧
  GetServer (Config.mk (Some [apiServer]) None "p") "api"
  = GetServer (Config.mk (Some [fsServer; apiServer]) None "p") "api".
Proof.
  destruct (GetServer_after_RemoveServer
              (Config.mk (Some [fsServer; apiServer]) None "p")
              (Config.mk (Some [apiServer]) None "p") "fs")
    as [Hgone Hother].
  - unfold serverNameList. simpl. apply NoDup_cons. split; [|apply NoDup_singleton].
    intros H. apply list_elem_of_singleton in H. discriminate.
  - reflexivity.
  - split; [exact Hgone|]. apply Hother. discriminate.
Defined.

(** ** Config store: finding synced clients *)

Lemma findSynced_updateSynced l n b s l' :
  updateSynced l n b s = Some l' →
  findSynced l' n b = Some (SyncedClient.mk n b s) ∧
  (∀ n' b', (n', b') ≠ (n, b) → findSynced l' n' b' = findSynced l n' b').
Proof.
  revert l'. induction l as [|sc l IH]; intros l'; simpl; [discriminate|].
  destruct (sameKey sc n b) eqn:Hk.
  - intros [= <-]. pose proof (proj1 (sameKey_true _ _ _) Hk) as Hkey.
    unfold syncedKey in Hkey. injection Hkey as Hn Hb. simpl. split.
    + rewrite Hn, Hb. unfold sameKey. simpl.
      by rewrite String.eqb_refl, Bool.eqb_reflx.
    + intros n' b' Hne. rewrite Hn, Hb. unfold sameKey in *. simpl.
      rewrite Hn, Hb.
      destruct (String.eqb_spec n n') as [->|_]; [|done].
      destruct (Bool.eqb_spec b b') as [->|_]; [done|done].
  - destruct (updateSynced l n b s) as [l0|]; simpl; [|discriminate].
    intros [= <-]. simpl. rewrite Hk. destruct (IH l0 eq_refl) as [Hfind Hother].
    split; [done|]. intros n' b' Hne. destruct (sameKey sc n' b'); [done|].
    by apply Hother.
Qed.

Lemma findSynced_app l1 l2 n b :
  findSynced (l1 ++ l2) n b =
    match findSynced l1 n b with Some sc => Some sc | None => findSynced l2 n b end.
Proof.
  induction l1 as [|sc l1 IH]; [done|]. simpl. by destruct (sameKey sc n b).
Qed.

Lemma findSynced_None l n b : findSynced l n b = None ↔ (n, b) ∉ map syncedKey l.
Proof.
  induction l as [|sc l IH]; simpl.
  - split; [intros _; apply not_elem_of_nil|done].
  - destruct (sameKey sc n b) eqn:Hk.
    + apply sameKey_true in Hk. split; [discriminate|]. intros H. exfalso. apply H.
      rewrite Hk. left.
    + rewrite not_elem_of_cons, IH. split; [|by intros [_ ?]].
      intros H. split; [|done]. intros Heq. symmetry in Heq.
      apply sameKey_true in Heq. congruence.
Qed.

(** X5.  After [AddSyncedClient], [GetSyncedClient] finds under the key a record
    with that name, that flag and the given servers, whether the key was
    there before or not; under every other key it finds what it found
    before. *)
Theorem GetSyncedClient_after_AddSyncedClient (c : Config) (n : string) (b : bool)
    (s : slice string) :
  GetSyncedClient (AddSyncedClient c n b s) n b = Some (SyncedClient.mk n b s) ∧
  (∀ n' b', (n', b') ≠ (n, b) →
     GetSyncedClient (AddSyncedClient c n b s) n' b' = GetSyncedClient c n' b').
Proof.
  unfold GetSyncedClient, AddSyncedClient.
  destruct (updateSynced (elems (Config.SyncedClients c)) n b s) as [l|] eqn:Hu.
  - simpl. by apply findSynced_updateSynced.
  - simpl. pose proof (proj1 (updateSynced_None _ _ _ _) Hu) as Hfresh.
    pose proof (proj2 (findSynced_None _ _ _) Hfresh) as Hnone.
    rewrite findSynced_app, Hnone. simpl. split.
    + unfold sameKey. simpl. by rewrite String.eqb_refl, Bool.eqb_reflx.
    + intros n' b' Hne. rewrite findSynced_app. simpl. unfold sameKey. simpl.
      destruct (findSynced (elems (Config.SyncedClients c)) n' b'); [done|].
      destruct (String.eqb_spec n n') as [->|_]; [|done].
      destruct (Bool.eqb_spec b b') as [->|_]; done.
Qed.

Lemma removeFirstSynced_None l n b :
  removeFirstSynced l n b = None ↔ (n, b) ∉ map syncedKey l.
Proof.
  induction l as [|sc l IH]; simpl.
  - split; [intros _; apply not_elem_of_nil|done].
  - destruct (sameKey sc n b) eqn:Hk.
    + apply sameKey_true in Hk. split; [discriminate|]. intros H. exfalso. apply H.
      rewrite Hk. left.
    + rewrite not_elem_of_cons, <- IH.
      destruct (removeFirstSynced l n b); simpl; split; try done.
      * intros [_ ?]. done.
      * intros _. split; [|done]. intros Heq. symmetry in Heq.
        apply sameKey_true in Heq. congruence.
Qed.

Lemma removeFirstSynced_find l n b l' n' b' :
  removeFirstSynced l n b = Some l' → (n', b') ≠ (n, b) →
  findSynced l' n' b' = findSynced l n' b'.
Proof.
  revert l'. induction l as [|sc l IH]; intros l'; simpl; [discriminate|].
  destruct (sameKey sc n b) eqn:Hk.
  - intros [= <-] Hne. apply sameKey_true in Hk.
    destruct (sameKey sc n' b') eqn:Hk'; [|done].
    apply sameKey_true in Hk'. congruence.
  - destruct (removeFirstSynced l n b) as [l0|]; simpl; [|discriminate].
    intros [= <-] Hne. simpl. destruct (sameKey sc n' b'); [done|]. by apply IH.
Qed.

Lemma removeFirstSynced_gone l n b l' :
  NoDup (map syncedKey l) → removeFirstSynced l n b = Some l' →
  findSynced l' n b = None.
Proof.
  revert l'. induction l as [|sc l IH]; intros l'; simpl; [discriminate|].
  rewrite NoDup_cons. intros [Hnotin Hnd].
  destruct (sameKey sc n b) eqn:Hk.
  - intros [= <-]. apply sameKey_true in Hk. apply findSynced_None. by rewrite <- Hk.
  - destruct (removeFirstSynced l n b) as [l0|]; simpl; [|discriminate].
    intros [= <-]. simpl. rewrite Hk. by apply IH.
Qed.

(** X6.  [RemoveSyncedClient] on a key that no record has returns the aggregate
    as it was.  It never changes what [GetSyncedClient] finds under another
    key; and in an aggregate with unique keys the key it removed is not
    found any more. *)
Theorem RemoveSyncedClient_lookup (c : Config) (n : string) (b : bool) :
  ((n, b) ∉ syncedKeys c → RemoveSyncedClient c n b = c) ∧
  (∀ n' b', (n', b') ≠ (n, b) →
     GetSyncedClient (RemoveSyncedClient c n b) n' b' = GetSyncedClient c n' b') ∧
  (NoDup (syncedKeys c) → GetSyncedClient (RemoveSyncedClient c n b) n b = None).
Proof.
  unfold RemoveSyncedClient, GetSyncedClient, syncedKeys.
  destruct (removeFirstSynced (elems (Config.SyncedClients c)) n b) as [l|] eqn:Hr.
  - split; [|split].
    + intros Hnotin. apply removeFirstSynced_None in Hnotin. congruence.
    + intros n' b' Hne. simpl. by eapply removeFirstSynced_find.
    + intros Hnd. simpl. by eapply removeFirstSynced_gone.
  - split; [done|]. split; [done|]. intros _.
    apply findSynced_None. by apply removeFirstSynced_None.
Qed.

Lemma RemoveSyncedClient_lookup_witness :
  RemoveSyncedClient staleConfig "zed" true = staleConfig ∧
  GetSyncedClient (RemoveSyncedClient staleConfig "zed" false) "gemini" false
  = GetSyncedClient staleConfig "gemini" false ∧
  GetSyncedClient (RemoveSyncedClient staleConfig "zed" false) "zed" false = None.
Proof.
  destruct (RemoveSyncedClient_lookup staleConfig "zed" true) as (Habsent & _ & _).
  destruct (RemoveSyncedClient_lookup staleConfig "zed" false) as (_ & Hother & Hgone).
  split; [|split].
  - apply Habsent. unfold syncedKeys. simpl. intros H.
    repeat (apply elem_of_cons in H as [H|H]; [discriminate|]). by apply elem_of_nil in H.
  - apply Hother. discriminate.
  - apply Hgone. unfold syncedKeys. simpl.
    repeat (apply NoDup_cons; split;
            [intros H; repeat (apply elem_of_cons in H as [H|H]; [discriminate|]);
             by apply elem_of_nil in H|]).
    apply NoDup_nil_2.
Defined.

(** ** Config store: where the document lives *)

Lemma searchUp_nearest w dirRev p :
  searchUp w dirRev = Some p →
  ∃ up, up ≤ length dirRev ∧
        p = joinPath (rev (drop up dirRev) ++ [configFileName]) ∧
        Stat w p = true ∧
        ∀ j, j < up → Stat w (joinPath (rev (drop j dirRev) ++ [configFileName])) = false.
Proof.
  induction dirRev as [|d parent IH].
  - cbn [searchUp].
    destruct (Stat w (joinPath (rev [] ++ [configFileName]))) eqn:Hs; [|discriminate].
    intros [= <-]. exists 0. split; [done|]. split; [done|]. split; [done|]. lia.
  - cbn [searchUp].
    destruct (Stat w (joinPath (rev (d :: parent) ++ [configFileName]))) eqn:Hs.
    + intros [= <-]. exists 0. split; [simpl; lia|]. split; [done|]. split; [done|]. lia.
    + intros Hp. destruct (IH Hp) as (up & Hup & -> & Hstat & Hbelow).
      exists (S up). split; [simpl; lia|]. split; [done|]. split; [done|].
      intros [|j] Hj; [by rewrite drop_0|]. rewrite skipn_cons. apply Hbelow. lia.
Qed.

Lemma searchUp_None w dirRev :
  searchUp w dirRev = None ↔
  ∀ j, j ≤ length dirRev →
       Stat w (joinPath (rev (drop j dirRev) ++ [configFileName])) = false.
Proof.
  induction dirRev as [|d parent IH].
  - cbn [searchUp].
    destruct (Stat w (joinPath (rev [] ++ [configFileName]))) eqn:Hs.
    + split; [discriminate|]. intros H. specialize (H 0 (le_n _)).
      rewrite drop_0, Hs in H. by discriminate H.
    + split; [|done]. intros _ j Hj. assert (j = 0) as -> by (simpl in Hj; lia).
      by rewrite drop_0.
  - cbn [searchUp].
    destruct (Stat w (joinPath (rev (d :: parent) ++ [configFileName]))) eqn:Hs.
    + split; [discriminate|]. intros H. specialize (H 0 (Nat.le_0_l _)).
      rewrite drop_0, Hs in H. by discriminate H.
    + rewrite IH. split.
      * intros H [|j] Hj; [by rewrite drop_0|]. rewrite skipn_cons. apply H.
        simpl in Hj. lia.
      * intros H j Hj. apply (H (S j)). simpl. lia.
Qed.

(** X7.  [findConfigInParents] returns the [mcpr.json] of the nearest directory
    that has one, going up from the working directory: the file it returns
    exists, it lies [up] levels above the working directory, and no level
    below that has the file.  It returns nothing when the working directory
    is unknown or no level up to the root has the file. *)
Theorem findConfigInParents_nearest (w : World) :
  (∀ p, findConfigInParents w = Some p →
     ∃ dir up, World.workDir w = Some dir ∧ up ≤ length dir ∧
               p = joinPath (take (length dir - up) dir ++ [configFileName]) ∧
               Stat w p = true ∧
               ∀ j, j < up →
                    Stat w (joinPath (take (length dir - j) dir ++ [configFileName]))
                    = false) ∧
  (findConfigInParents w = None ↔
     World.workDir w = None ∨
     ∃ dir, World.workDir w = Some dir ∧
            ∀ j, j ≤ length dir →
                 Stat w (joinPath (take (length dir - j) dir ++ [configFileName]))
                 = false).
Proof.
  assert (∀ (dir : list string) j, rev (drop j (rev dir)) = take (length dir - j) dir)
    as Hrev.
  { intros dir j. rewrite (List.skipn_rev j dir). apply rev_involutive. }
  unfold findConfigInParents. split.
  - intros p Hp. destruct (World.workDir w) as [dir|]; [|discriminate].
    apply searchUp_nearest in Hp as (up & Hup & -> & Hstat & Hbelow).
    rewrite length_rev in Hup. exists dir, up. split; [done|]. split; [done|].
    rewrite Hrev in *. split; [done|]. split; [done|].
    intros j Hj. rewrite <- Hrev. by apply Hbelow.
  - destruct (World.workDir w) as [dir|]; [|by split; [left|]].
    rewrite searchUp_None, length_rev. split.
    + intros H. right. exists dir. split; [done|]. intros j Hj. rewrite <- Hrev. by apply H.
    + intros [|(dir' & [= <-] & H)]; [done|]. intros j Hj. rewrite Hrev. by apply H.
Qed.

(** [GetWriteConfigPath] with [preferLocal] never fails: it answers the
    project file found, or the relative name [mcpr.json].  [GetConfigPath],
    and [GetWriteConfigPath] without [preferLocal], fail exactly when they
    need the home directory and it is unknown, and then with an [IOError]. *)
Lemma config_path_failures (w : World) :
  (∃ p, GetWriteConfigPath w true = Ok p ∧
        (findConfigInParents w = None → p = configFileName)) ∧
  (∀ e, GetConfigPath w = Err e ↔
        findConfigInParents w = None ∧ World.homeDir w = None ∧ e = ErrHomeDir) ∧
  (∀ e, GetWriteConfigPath w false = Err e ↔ World.homeDir w = None ∧ e = ErrHomeDir) ∧
  GetConfigPath w ≠ Panic ∧ kind ErrHomeDir = IOError.
Proof.
  unfold GetWriteConfigPath, GetConfigPath, getGlobalConfigPath.
  split; [|split; [|split; [|split; [|done]]]].
  - destruct (findConfigInParents w) as [p|]; [exists p|exists configFileName]; by split.
  - intros e. destruct (findConfigInParents w) as [p|].
    + split; [discriminate|]. by intros [? _].
    + destruct (World.homeDir w); split; try discriminate.
      * by intros (_ & ? & _).
      * by intros [= <-].
      * by intros (_ & _ & ->).
  - intros e. destruct (World.homeDir w); split; try discriminate.
    + by intros [? _].
    + by intros [= <-].
    + by intros [_ ->].
  - destruct (findConfigInParents w); [done|]. by destruct (World.homeDir w).
Qed.

Lemma Join_nonempty home elem : joinPath elem ≠ "" → Join home elem ≠ "".
Proof.
  unfold Join. intros Hne Heq. apply Hne.
  apply (f_equal String.length) in Heq. rewrite slength_app in Heq. simpl in Heq.
  destruct (joinPath elem); [done|]. simpl in Heq. lia.
Qed.



(** A [Save] that fails fails with an [IOError], and leaves the servers and
    records of the aggregate as they were; it has bound the aggregate to the
    global path unless the home directory was the failure. *)
Lemma Save_failures (w : World) (c c' : Config) (e : error) :
  Save w c = (c', Err e) →
  kind e = IOError ∧
  Config.Servers c' = Config.Servers c ∧
  Config.SyncedClients c' = Config.SyncedClients c ∧
  (e = ErrHomeDir ↔ Config.path c = "" ∧ World.homeDir w = None) ∧
  (e = ErrHomeDir → c' = c).
Proof.
  unfold Save, getGlobalConfigPath.
  destruct (String.eqb_spec (Config.path c) "") as [Hempty|Hne].
  - destruct (World.homeDir w) as [home|].
    + destruct (MkdirAllDir w _); simpl.
      * destruct (canWrite w _); simpl; [discriminate|].
        intros [= <- <-]. repeat split; try done. by intros [_ ?].
      * intros [= <- <-]. repeat split; try done. by intros [_ ?].
    + intros [= <- <-]. by repeat split.
  - destruct (MkdirAllDir w _); simpl.
    + destruct (canWrite w _); simpl; [discriminate|].
      intros [= <- <-]. repeat split; try done. by intros [? _].
    + intros [= <- <-]. repeat split; try done. by intros [? _].
Qed.

Lemma Save_failures_witness :
  kind ErrHomeDir = IOError ∧
  Config.Servers unboundConfig = Config.Servers unboundConfig ∧
  Config.SyncedClients unboundConfig = Config.SyncedClients unboundConfig ∧
  (ErrHomeDir = ErrHomeDir ↔
     Config.path unboundConfig = "" ∧
     World.homeDir (World.mk None None "linux" ∅ ∅ ∅ ∅ ∅ ∅) = None) ∧
  (ErrHomeDir = ErrHomeDir → unboundConfig = unboundConfig).
Proof.
  apply (Save_failures (World.mk None None "linux" ∅ ∅ ∅ ∅ ∅ ∅) unboundConfig).
  reflexivity.
Defined.

Lemma joinPath_config_nonempty (l : list string) :
  joinPath (l ++ [configFileName]) ≠ "".
Proof. destruct l; simpl; rewrite sapp_cons; discriminate. Qed.

Lemma Load_unbound (w : World) (c : Config) :
  Load w = Ok c → Config.path c = "" → World.homeDir w = None.
Proof.
  intros Hload Hpath. unfold Load in Hload.
  destruct (GetConfigPath w) as [p| |] eqn:Hp; simpl in Hload; try discriminate.
  assert (p ≠ "") as Hne.
  { unfold GetConfigPath, getGlobalConfigPath in Hp.
    destruct (findConfigInParents w) as [q|] eqn:Hfind.
    - injection Hp as ->. unfold findConfigInParents in Hfind.
      destruct (World.workDir w) as [dir|]; [|discriminate].
      apply searchUp_nearest in Hfind as (up & _ & -> & _).
      apply joinPath_config_nonempty.
    - destruct (World.homeDir w) as [home|]; [|discriminate]. injection Hp as <-.
      apply Join_nonempty. by vm_compute. }
  destruct (ReadFileJSON w p) as [data| |]; try discriminate.
  - destruct (UnmarshalConfig data) as [cfg|]; [|discriminate].
    injection Hload as <-. by simpl in Hpath.
  - injection Hload as <-. simpl in Hpath.
    unfold getGlobalConfigPath in *. destruct (World.homeDir w) as [home|] eqn:Hhome; [|done].
    exfalso. revert Hpath. apply Join_nonempty. by vm_compute.
Qed.

(** X9.  [Load] reads the file that [GetConfigPath] resolves: whenever that file
    is there it answers what [LoadFromPath] answers for it, so a project
    file shadows the global one.  It fails with an [IOError] when no path
    can be resolved.  An aggregate it returns without a path is one that
    [Save] cannot write. *)
Theorem Load_resolves (w : World) :
  (∀ p, GetConfigPath w = Ok p → ReadFileJSON w p ≠ ReadNotExist →
        Load w = LoadFromPath w p) ∧
  (∀ p, findConfigInParents w = Some p → ReadFileJSON w p ≠ ReadNotExist →
        Load w = LoadFromPath w p) ∧
  (∀ e, GetConfigPath w = Err e → Load w = Err e ∧ kind e = IOError) ∧
  (∀ c, Load w = Ok c → Config.path c = "" →
        World.homeDir w = None ∧ ∃ e, Save w c = (c, Err e) ∧ kind e = IOError).
Proof.
  assert (∀ p, GetConfigPath w = Ok p → ReadFileJSON w p ≠ ReadNotExist →
               Load w = LoadFromPath w p) as Hres.
  { intros p Hp Hread. unfold Load, LoadFromPath. rewrite Hp. simpl.
    by destruct (ReadFileJSON w p). }
  split; [exact Hres|]. split; [|split].
  - intros p Hp. apply Hres. unfold GetConfigPath. by rewrite Hp.
  - intros e He. unfold Load. rewrite He. split; [done|].
    unfold GetConfigPath, getGlobalConfigPath in He.
    destruct (findConfigInParents w); [discriminate|].
    destruct (World.homeDir w); [discriminate|]. by injection He as <-.
  - intros c Hload Hpath. pose proof (Load_unbound w c Hload Hpath) as Hhome.
    split; [done|]. exists ErrHomeDir. split; [|done].
    unfold Save, getGlobalConfigPath. by rewrite Hpath, Hhome.
Qed.

(** ** The client registry *)

Lemma registry_lookup (l : list Client) (m : gmap string Client) (name : string) :
  NoDup (Client.Name <$> l) →
  (∀ c, c ∈ l → m !! Client.Name c = None) →
  ∀ c, fold_left RegisterClient l m !! name = Some c ↔
       (c ∈ l ∧ Client.Name c = name) ∨ m !! name = Some c.
Proof.
  revert m. induction l as [|c0 l IH]; intros m Hnd Hfresh c.
  - simpl. split; [by right|]. intros [[H _]|H]; [by apply elem_of_nil in H|done].
  - rewrite fmap_cons in Hnd. apply NoDup_cons in Hnd as [Hnotin Hnd].
    cbn [fold_left]. rewrite IH; [|done|].
    + unfold RegisterClient. split.
      * intros [[Hin Hname]|Hm].
        -- left. split; [by right|done].
        -- destruct (decide (Client.Name c0 = name)) as [Heq|Hne].
           ++ rewrite Heq, lookup_insert_eq in Hm. injection Hm as <-.
              left. split; [left|done].
           ++ rewrite lookup_insert_ne in Hm by done. by right.
      * intros [[Hin Hname]|Hm].
        -- apply elem_of_cons in Hin as [->|Hin].
           ++ right. rewrite Hname. apply lookup_insert_eq.
           ++ left. by split.
        -- right. rewrite lookup_insert_ne; [done|]. intros Heq.
           rewrite <- Heq in Hm. rewrite (Hfresh c0) in Hm by left. discriminate.
    + intros c1 Hin. unfold RegisterClient. rewrite lookup_insert_ne.
      * apply Hfresh. by right.
      * intros Heq. apply Hnotin. rewrite Heq. apply list_elem_of_fmap. by exists c1.
Qed.

Lemma registered_names_NoDup quote : NoDup (Client.Name <$> registered quote).
Proof.
  apply (bool_decide_unpack (NoDup (Client.Name <$> registered quote))). by vm_compute.
Qed.

Lemma clientRegistry_lookup quote name c :
  clientRegistry quote !! name = Some c ↔ c ∈ registered quote ∧ Client.Name c = name.
Proof.
  unfold clientRegistry. rewrite registry_lookup.
  - rewrite lookup_empty. split; [|by left]. by intros [?|?].
  - apply registered_names_NoDup.
  - intros. apply lookup_empty.
Qed.

Lemma GetClient_Ok_inv quote name c :
  GetClient quote name = Ok c → c ∈ registered quote ∧ Client.Name c = name.
Proof.
  unfold GetClient. destruct (clientRegistry quote !! name) as [c'|] eqn:Hl; [|discriminate].
  intros [= <-]. by apply clientRegistry_lookup.
Qed.

Lemma GetClient_Ok_intro quote c :
  c ∈ registered quote → GetClient quote (Client.Name c) = Ok c.
Proof.
  intros Hin. unfold GetClient.
  by rewrite (proj2 (clientRegistry_lookup quote (Client.Name c) c) (conj Hin eq_refl)).
Qed.

(** X10.  [GetClient] answers a client exactly when one was registered under the
    name, and then the one whose [Name] it is: no registration has replaced
    another.  For every other name it fails with a [NotFound] error that
    carries the name. *)
Theorem GetClient_registered (quote : string → string) (name : string) :
  (∀ c, GetClient quote name = Ok c ↔ c ∈ registered quote ∧ Client.Name c = name) ∧
  (GetClient quote name = Err (ErrUnknownClient name) ↔
     name ∉ Client.Name <$> registered quote) ∧
  (∀ e, GetClient quote name = Err e → e = ErrUnknownClient name ∧ kind e = NotFound) ∧
  GetClient quote name ≠ Panic ∧
  length (registered quote) = size (clientRegistry quote).
Proof.
  split; [|split; [|split; [|split]]].
  - intros c. split; [apply GetClient_Ok_inv|]. intros H.
    apply clientRegistry_lookup in H. unfold GetClient. by rewrite H.
  - unfold GetClient. destruct (clientRegistry quote !! name) as [c|] eqn:Hl.
    + split; [discriminate|]. intros Hnotin. exfalso. apply Hnotin.
      apply clientRegistry_lookup in Hl as [Hin <-]. apply list_elem_of_fmap. by exists c.
    + split; [|done]. intros _ Hin. apply list_elem_of_fmap in Hin as (c & -> & Hin).
      assert (clientRegistry quote !! Client.Name c = Some c) as Hc
        by by apply clientRegistry_lookup.
      congruence.
  - unfold GetClient. intros e. destruct (clientRegistry quote !! name); [discriminate|].
    by intros [= <-].
  - unfold GetClient. by destruct (clientRegistry quote !! name).
  - by vm_compute.
Qed.

Ltac each_registered H :=
  unfold registered in H;
  repeat (apply elem_of_cons in H as [->|H]); [..|by apply elem_of_nil in H].

(** X11.  What [Client.Sync] does with [local] set, for a registered client.
    Without local support it fails with an [UnsupportedOperation] error and
    calls no adapter.  With local support the [LocalPath] function is there
    (the call cannot hit a nil function), it answers a file below the working
    directory, and [Sync] fails without calling the adapter when the working
    directory is unknown. *)
Theorem Sync_local (quote : string → string) (c : Client) (servers : list MCPServer)
    (w : World) :
  c ∈ registered quote →
  (Client.SupportsLocal c = false →
     Sync c servers true w = Err (ErrNoLocal (Client.DisplayName c)) ∧
     kind (ErrNoLocal (Client.DisplayName c)) = UnsupportedOperation) ∧
  (Client.SupportsLocal c = true →
     ∃ elem, Client.LocalPath c = Some (underCwd elem) ∧ elem ≠ [] ∧
             (World.workDir w = None → Sync c servers true w = Err ErrOS) ∧
             (∀ dir, World.workDir w = Some dir →
                Sync c servers true w =
                  (do w' <- Client.SyncFunc c servers (Join (joinPath dir) elem) w;
                   Ok (Join (joinPath dir) elem, w')))) ∧
  (Client.SupportsLocal c = true ↔ is_Some (Client.LocalPath c)).
Proof.
  intros Hin. each_registered Hin;
    cbn [Client.SupportsLocal Client.LocalPath Client.DisplayName Client.SyncFunc];
    (split; [|split]).
  all: first
    [ discriminate
    | by intros _; split
    | by split; [discriminate|intros [? [=]]]
    | by split; [eexists|]
    | intros _; eexists; split; [reflexivity|]; split; [done|];
      unfold Sync, underCwd, Getwd; simpl; split; [by intros ->|by intros dir ->] ].
Qed.

Lemma Sync_local_witness :
  ∃ c, GetClient strconvQuote "zed" = Ok c ∧
       Sync c [fsServer] true freshWorld = Err (ErrNoLocal "Zed").
Proof.
  exists (Client.mk "zed" "Zed" (underHome [".config"; "zed"; "settings.json"]) None false
            syncToZed).
  assert (Client.mk "zed" "Zed" (underHome [".config"; "zed"; "settings.json"]) None false
            syncToZed ∈ registered strconvQuote) as Hin.
  { unfold registered. do 4 (apply elem_of_cons; right). apply elem_of_cons. by left. }
  split; [exact (GetClient_Ok_intro strconvQuote _ Hin)|].
  exact (proj1 (proj1 (Sync_local strconvQuote _ [fsServer] freshWorld Hin) eq_refl)).
Defined.

(** X12.  The global path of a registered client never panics; it resolves
    whenever the home directory is known and the operating system is one of
    darwin, linux and windows; and when it fails it is with an [IOError],
    for an unknown home directory or an unsupported operating system. *)
Theorem GlobalPath_outcomes (quote : string → string) (c : Client) (w : World) :
  c ∈ registered quote →
  Client.GlobalPath c w ≠ Panic ∧
  (∀ e, Client.GlobalPath c w = Err e →
        kind e = IOError ∧
        (World.homeDir w = None ∨ e = ErrUnsupportedOS (World.goos w))) ∧
  (is_Some (World.homeDir w) → World.goos w ∈ ["darwin"; "linux"; "windows"] →
   ∃ p, Client.GlobalPath c w = Ok p).
Proof.
  intros Hin.
  assert (World.goos w ∈ ["darwin"; "linux"; "windows"] →
          String.eqb (World.goos w) "darwin" = false →
          String.eqb (World.goos w) "windows" = false →
          String.eqb (World.goos w) "linux" = true) as Hos.
  { intros Hg Hd Hw. apply String.eqb_neq in Hd, Hw. apply String.eqb_eq.
    repeat (apply elem_of_cons in Hg as [Hg|Hg]; [done|]). by apply elem_of_nil in Hg. }
  each_registered Hin; cbn [Client.GlobalPath];
    unfold appSupport, underHome, getCodexConfigPath, UserHomeDir;
    destruct (World.homeDir w) as [home|]; simpl.
  all: repeat match goal with
         | |- context [String.eqb ?a ?b] => destruct (String.eqb a b) eqn:?
         end.
  all: split; [done|]; split.
  all: try (intros e He; discriminate He).
  all: try (intros e He; injection He as <-; split; [done|]; by auto).
  all: try (by intros [? [=]]).
  all: intros _ Hg; first [by eexists | by discriminate (Hos Hg eq_refl eq_refl)].
Qed.

Lemma GlobalPath_outcomes_witness :
  ∃ c, GetClient strconvQuote "claude-desktop" = Ok c ∧
       ∃ p, Client.GlobalPath c freshWorld = Ok p.
Proof.
  exists (Client.mk "claude-desktop" "Claude Desktop"
            (appSupport darwinSupport [".config"] ["Claude"; "claude_desktop_config.json"])
            None false syncToMCPConfig).
  assert (Client.mk "claude-desktop" "Claude Desktop"
            (appSupport darwinSupport [".config"] ["Claude"; "claude_desktop_config.json"])
            None false syncToMCPConfig ∈ registered strconvQuote) as Hin.
  { unfold registered. apply elem_of_cons. by left. }
  split; [exact (GetClient_Ok_intro strconvQuote _ Hin)|].
  refine (proj2 (proj2 (GlobalPath_outcomes strconvQuote _ freshWorld Hin)) _ _).
  - by eexists.
  - simpl. apply elem_of_cons. right. apply elem_of_cons. by left.
Defined.

(** ** The adapters write one file *)

Lemma runJSON_put a servers path w w' :
  runJSON a servers path w = Ok w' → ∃ v, w' = putJSON w path v.
Proof.
  destruct a as [a| |]; simpl.
  - rewrite runMerge_unfold. intros Hrun.
    destruct (readSettings w path) as [[m|]| |]; simpl in Hrun; try discriminate.
    apply saveSettingsFile_inv in Hrun as (_ & _ & ->). by eexists.
  - unfold syncToMCPConfig, saveMCPConfig.
    destruct (MkdirAllDir w path); simpl; [|discriminate].
    destruct (canWrite w path); simpl; [|discriminate].
    intros [= <-]. by eexists.
  - unfold syncToVSCodeMCP. intros Hrun.
    apply saveSettingsFile_inv in Hrun as (_ & _ & ->). by eexists.
Qed.

Lemma syncToCodex_put quote servers path w w' :
  syncToCodex quote servers path w = Ok w' → ∃ s, w' = putText w path s.
Proof.
  unfold syncToCodex. intros Hrun.
  destruct (ReadFileText w path) as [data| |]; simpl in Hrun; try discriminate;
    (destruct (MkdirAllDir w path); simpl in Hrun; [|discriminate]);
    (destruct (canWrite w path); simpl in Hrun; [|discriminate]);
    injection Hrun as <-; by eexists.
Qed.

Lemma registered_adapter quote c :
  c ∈ registered quote →
  (∃ a, ∀ servers path w, Client.SyncFunc c servers path w = runJSON a servers path w) ∨
  (Client.Name c = "codex" ∧ Client.SyncFunc c = syncToCodex quote).
Proof.
  intros Hin. each_registered Hin; cbn [Client.SyncFunc Client.Name];
    first [ by right
          | by left; exists MCPConfigFile
          | by left; exists VSCodeMCP
          | by left; exists (Merging ClaudeCode)
          | by left; exists (Merging OpenCode)
          | by left; exists (Merging Zed)
          | by left; exists (Merging Continue)
          | by left; exists (Merging (SettingsWithKey "mcpServers")) ].
Qed.

(** X13.  A [Sync] of a registered client that succeeds has written the file
    whose path it returns and nothing else: every other file, JSON or text,
    is as it was, and so are the home directory, the working directory and
    the environment. *)
Theorem Sync_writes_one_file (quote : string → string) (c : Client)
    (servers : list MCPServer) (local : bool) (w w' : World) (path : string) :
  c ∈ registered quote →
  Sync c servers local w = Ok (path, w') →
  Stat w' path = true ∧
  (∀ p, p ≠ path →
     World.jsonFiles w' !! p = World.jsonFiles w !! p ∧
     World.textFiles w' !! p = World.textFiles w !! p) ∧
  World.homeDir w' = World.homeDir w ∧ World.workDir w' = World.workDir w ∧
  World.goos w' = World.goos w ∧ World.environ w' = World.environ w.
Proof.
  intros Hin Hsync.
  assert (Client.SyncFunc c servers path w = Ok w') as Hrun.
  { unfold Sync in Hsync.
    destruct (if local then _ else _) as [p| |]; simpl in Hsync; try discriminate.
    destruct (Client.SyncFunc c servers p w) as [w1| |] eqn:Hf; simpl in Hsync;
      try discriminate.
    injection Hsync as <- <-. exact Hf. }
  destruct (registered_adapter quote c Hin) as [[a Ha]|[_ Hc]].
  - rewrite Ha in Hrun. apply runJSON_put in Hrun as [v ->].
    unfold Stat, putJSON. simpl. rewrite lookup_insert_eq.
    split; [by rewrite bool_decide_true by by eexists|].
    split; [|done]. intros p Hp. by rewrite lookup_insert_ne.
  - rewrite Hc in Hrun. apply syncToCodex_put in Hrun as [s ->].
    unfold Stat, putText. simpl. rewrite lookup_insert_eq.
    split; [rewrite (bool_decide_true (is_Some (Some s))) by (by eexists); apply orb_true_r|].
    split; [|done]. intros p Hp. by rewrite lookup_insert_ne.
Qed.

Lemma Sync_writes_one_file_witness :
  ∃ c path w', GetClient strconvQuote "gemini" = Ok c ∧
               Sync c [fsServer] false freshWorld = Ok (path, w') ∧
               Stat w' path = true.
Proof.
  pose (c := Client.mk "gemini" "Gemini CLI"
               (underHome [".gemini"; "settings.json"])
               (Some (underCwd [".gemini"; "settings.json"]))
               true syncToSettingsWithMcpServers).
  assert (c ∈ registered strconvQuote) as Hin.
  { unfold registered. do 10 (apply elem_of_cons; right). apply elem_of_cons. by left. }
  destruct (Sync c [fsServer] false freshWorld) as [[path w']| |] eqn:Hs;
    [|by vm_compute in Hs..].
  exists c, path, w'. split; [exact (GetClient_Ok_intro strconvQuote c Hin)|].
  split; [done|].
  exact (proj1 (Sync_writes_one_file strconvQuote c _ _ _ _ _ Hin Hs)).
Defined.

(** ** The JSON adapters: failures, and what the entries hold *)

(** X14.  How a merge adapter ends on each kind of settings file.  A file that
    cannot be read gives an [IOError], a file that is not a JSON object (or
    [null]) a [ParseError], and nothing is written.  A file that holds
    [null] decodes to a nil map, and the assignment of the adapter's key
    panics.  A missing file is treated as the empty object. *)
Theorem merge_adapter_outcomes (a : MergeAdapter) (servers : list MCPServer)
    (path : string) (w : World) :
  (ReadFileJSON w path = ReadError →
     ∃ e, runMerge a servers path w = Err e ∧ kind e = IOError) ∧
  (∀ data, ReadFileJSON w path = ReadData data → UnmarshalSettings data = None →
     ∃ e, runMerge a servers path w = Err e ∧ kind e = ParseError) ∧
  (ReadFileJSON w path = ReadData (Doc JNull) → runMerge a servers path w = Panic) ∧
  (ReadFileJSON w path = ReadNotExist →
     runMerge a servers path w
     = saveSettingsFile w path {[mcpKey a := ownedValue a servers]}) ∧
  (∀ e, runMerge a servers path w = Err e → kind e = IOError ∨ kind e = ParseError).
Proof.
  rewrite runMerge_unfold. unfold readSettings. repeat split.
  - intros ->. by exists ErrReadConfig.
  - intros data -> ->. by exists ErrParseConfig.
  - by intros ->.
  - intros ->. simpl. by rewrite insert_empty.
  - intros e. destruct (ReadFileJSON w path) as [data| |]; simpl.
    + destruct (UnmarshalSettings data) as [[m|]|]; simpl; try discriminate.
      * unfold saveSettingsFile. destruct (MkdirAllDir w path); simpl; [|intros [= <-]; by left].
        destruct (canWrite w path); simpl; [discriminate|intros [= <-]; by left].
      * intros [= <-]. by right.
    + unfold saveSettingsFile. destruct (MkdirAllDir w path); simpl; [|intros [= <-]; by left].
      destruct (canWrite w path); simpl; [discriminate|intros [= <-]; by left].
    + intros [= <-]. by left.
Qed.

(** X15.  The two adapters that replace the whole file never read it: in a
    directory they can write to they succeed whatever the file held, even
    one that cannot be read or is not JSON, and the file they leave holds
    their own key and no other. *)
Theorem full_replace_drops_other_keys (a : JSONAdapter) (servers : list MCPServer)
    (path : string) (w : World) :
  (∀ m, a ≠ Merging m) →
  MkdirAllDir w path = true → canWrite w path = true →
  ∃ v, runJSON a servers path w = Ok (putJSON w path (JObj {[ownedKey a := v]})) ∧
       entryNames v = serverNames servers.
Proof.
  intros Ha Hm Hw. destruct a as [m| |]; [by destruct (Ha m)| |]; simpl.
  - unfold syncToMCPConfig, saveMCPConfig. rewrite Hm, Hw. simpl.
    eexists. split; [done|]. apply dom_buildServers.
  - unfold syncToVSCodeMCP, saveSettingsFile. rewrite Hm, Hw. simpl.
    eexists. split; [done|]. apply dom_buildServers.
Qed.

Lemma full_replace_drops_other_keys_witness :
  ∃ v, runJSON MCPConfigFile [fsServer] "/home/u/.config/mcpr/config.json" brokenWorld
       = Ok (putJSON brokenWorld "/home/u/.config/mcpr/config.json"
               (JObj {[ownedKey MCPConfigFile := v]})) ∧
       entryNames v = serverNames [fsServer].
Proof.
  apply (full_replace_drops_other_keys MCPConfigFile [fsServer]
           "/home/u/.config/mcpr/config.json" brokenWorld); [discriminate|done|done].
Defined.

Lemma buildServers_snoc entry servers s :
  buildServers entry (servers ++ [s])
  = <[MCPServer.Name s := entry s]> (buildServers entry servers).
Proof. unfold buildServers. by rewrite fold_left_app. Qed.

Lemma buildServers_lookup entry servers name :
  buildServers entry servers !! name
  = entry <$> last (filter (fun s => MCPServer.Name s = name) servers).
Proof.
  induction servers as [|s servers IH] using rev_ind; [done|].
  rewrite buildServers_snoc, filter_app.
  destruct (decide (MCPServer.Name s = name)) as [Heq|Hne].
  - rewrite Heq, lookup_insert_eq. rewrite filter_cons_True by done.
    by rewrite filter_nil, last_snoc.
  - rewrite lookup_insert_ne by done. rewrite filter_cons_False by done.
    by rewrite filter_nil, app_nil_r.
Qed.

Lemma filter_name_nil (servers : list MCPServer) name :
  name ∉ MCPServer.Name <$> servers →
  filter (fun s => MCPServer.Name s = name) servers = [].
Proof.
  induction servers as [|s servers IH]; [done|].
  rewrite fmap_cons, not_elem_of_cons. intros [Hne Hnotin].
  rewrite filter_cons_False by done. by apply IH.
Qed.

(** X16.  The map of entries an adapter builds holds, under each name, the entry
    of the last server given with that name: an earlier server with the
    same name is overwritten.  When the names are unique, as in a store
    built through [AddServer], every server given has its own entry. *)
Theorem buildServers_last_wins (entry : MCPServer → json) (servers : list MCPServer) :
  (∀ name, buildServers entry servers !! name
           = entry <$> last (filter (fun s => MCPServer.Name s = name) servers)) ∧
  (NoDup (MCPServer.Name <$> servers) →
   ∀ s, s ∈ servers → buildServers entry servers !! MCPServer.Name s = Some (entry s)) ∧
  (∀ front s s', MCPServer.Name s = MCPServer.Name s' →
     buildServers entry (front ++ [s; s']) = buildServers entry (front ++ [s'])).
Proof.
  split; [|split].
  - apply buildServers_lookup.
  - intros Hnd s Hin. rewrite buildServers_lookup.
    induction servers as [|s0 servers IH]; [by apply elem_of_nil in Hin|].
    rewrite fmap_cons in Hnd. apply NoDup_cons in Hnd as [Hnotin Hnd].
    apply elem_of_cons in Hin as [->|Hin].
    + rewrite filter_cons_True by done.
      by rewrite (filter_name_nil servers (MCPServer.Name s0)).
    + rewrite filter_cons_False; [by apply IH|].
      intros Heq. apply Hnotin. rewrite Heq. apply list_elem_of_fmap. by exists s.
  - intros front s s' Heq.
    change (front ++ [s; s']) with (front ++ [s] ++ [s']). rewrite app_assoc.
    rewrite !buildServers_snoc, Heq. apply insert_insert_eq.
Qed.

Ltac entry_fields :=
  repeat match goal with
    | |- context [0 <? ?n] => destruct (Nat.ltb_spec 0 n)
    | |- context [Nat.eqb ?n 0] => destruct (Nat.eqb_spec n 0)
    | |- context [String.eqb ?a ?b] => destruct (String.eqb_spec a b)
    end;
  try congruence;
  cbn [setIf];
  repeat split;
  repeat first [ rewrite lookup_insert_eq | rewrite lookup_insert_ne by done
               | rewrite lookup_singleton_eq | rewrite lookup_singleton_ne by done
               | rewrite lookup_empty ];
  try done; try lia;
  try (by intros [? [=]]); try (by intros; eexists).

(** X17.  In the three formats that write one flat object per server
    ([syncToSettingsWithKey] and [syncToVSCodeMCP], [syncToClaudeCode],
    [syncToMCPConfig]) an entry holds the fields of the server's kind only,
    whatever else the record carries, and [args], [env] and [headers]
    exactly when they are not empty. *)
Theorem entries_kind_exclusive (s : MCPServer) :
  kindExclusive s (settingsEntry s) ∧
  kindExclusive s (claudeCodeEntry s) ∧
  kindExclusive s (encEntry (mcpConfigEntry s)).
Proof.
  unfold kindExclusive, settingsEntry, claudeCodeEntry, encEntry, mcpConfigEntry.
  destruct (isHTTP s) eqn:Hkind; (split; [|split]); eexists; (split; [reflexivity|]);
    cbn [MCPServerEntry.Command MCPServerEntry.Args MCPServerEntry.Env
         MCPServerEntry.URL MCPServerEntry.Headers];
    unfold omitStr, omitStrings, omitStrMap; cbn [len maplen entries elems];
    entry_fields.
Qed.

(** ** The TOML helpers *)

Lemma sapp_cancel_l a b c : a +:+ b = a +:+ c → b = c.
Proof.
  induction a as [|x a IH]; [done|]. rewrite !sapp_cons. intros [= H]. by apply IH.
Qed.

Lemma sapp_cancel_r a b c : a +:+ c = b +:+ c → a = b.
Proof.
  intros H. assert (String.length a = String.length b) as Hlen.
  { apply (f_equal String.length) in H. rewrite !slength_app in H. lia. }
  revert b H Hlen. induction a as [|x a IH]; intros [|y b] H Hlen; try done.
  rewrite !sapp_cons in H. injection H as -> H. f_equal. apply IH; [done|].
  simpl in Hlen. lia.
Qed.

(** [tomlHasPrefix] and [tomlHasSuffix] decide whether the string starts,
    respectively ends, with the other: they never read out of range, also
    when the other string is the longer one. *)
Lemma toml_affix_tests (s t : string) :
  (tomlHasPrefix s t = true ↔ ∃ rest, s = t +:+ rest) ∧
  (tomlHasSuffix s t = true ↔ ∃ front, s = front +:+ t) ∧
  (String.length s < String.length t →
     tomlHasPrefix s t = false ∧ tomlHasSuffix s t = false).
Proof.
  split; [apply tomlHasPrefix_spec|]. split; [apply tomlHasSuffix_spec|].
  intros Hlen. unfold tomlHasPrefix, tomlHasSuffix.
  by rewrite (proj2 (Nat.leb_gt _ _) Hlen).
Qed.

Lemma trimLeft_split s : ∃ pre, s = pre +:+ trimLeft s ∧ allBlank pre = true.
Proof.
  induction s as [|c s (pre & IH & Hpre)]; [by exists ""|]. simpl.
  destruct (isBlank c) eqn:Hc.
  - exists (String c pre). rewrite sapp_cons, <- IH. split; [done|]. simpl. by rewrite Hc.
  - by exists "".
Qed.

Lemma trimRight_split s : ∃ post, s = trimRight s +:+ post ∧ allBlank post = true.
Proof.
  induction s as [|c s (post & IH & Hpost)]; [by exists ""|]. simpl.
  destruct (trimRight s) as [|c' r] eqn:Hr.
  - rewrite sapp_nil_l in IH. subst post. destruct (isBlank c) eqn:Hc.
    + exists (String c s). split; [done|]. simpl. by rewrite Hc.
    + exists s. by split.
  - exists post. rewrite sapp_cons. by rewrite <- IH.
Qed.

Lemma trimRight_idemp s : trimRight (trimRight s) = trimRight s.
Proof.
  induction s as [|c s IH]; [done|]. simpl.
  destruct (trimRight s) as [|c' r] eqn:Hr.
  - destruct (isBlank c) eqn:Hc; [done|]. simpl. by rewrite Hc.
  - cbn [trimRight] in *. by rewrite IH.
Qed.

Lemma trimRight_keeps_start s : trimLeft s = s → trimLeft (trimRight s) = trimRight s.
Proof.
  destruct s as [|c s]; [done|]. simpl. destruct (isBlank c) eqn:Hc.
  - intros H. apply (f_equal String.length) in H. simpl in H.
    destruct (trimLeft_split s) as (pre & Hs & _).
    apply (f_equal String.length) in Hs. rewrite slength_app in Hs. lia.
  - intros _. destruct (trimRight s); simpl; by rewrite Hc.
Qed.

Lemma trimLeft_idemp s : trimLeft (trimLeft s) = trimLeft s.
Proof.
  induction s as [|c s IH]; [done|]. simpl. destruct (isBlank c) eqn:Hc; [done|].
  simpl. by rewrite Hc.
Qed.

Lemma trimRight_last s c : isBlank c = true → trimRight s ≠ s +:+ String c "" ∧
  ∀ front, trimRight s = front +:+ String c "" → False.
Proof.
  intros Hc. assert (∀ front, trimRight s = front +:+ String c "" → False) as H.
  { induction s as [|x s IH]; intros front; simpl.
    - by destruct front.
    - destruct (trimRight s) as [|c' r] eqn:Hr.
      + destruct (isBlank x) eqn:Hx; [by destruct front|].
        destruct front as [|y front]; [intros [= ->]; congruence|].
        rewrite sapp_cons. intros [= _ H]. by destruct front.
      + destruct front as [|y front]; [done|].
        rewrite sapp_cons. intros [= _ H]. by apply (IH front). }
  split; [|done]. intros Heq. by apply (H s).
Qed.

(** X18.  [tomlTrimWhitespace] removes spaces and tabs from both ends and nothing
    else: the string is what it returns between two runs of blanks, what it
    returns neither starts nor ends with a blank, and trimming again changes
    nothing. *)
Theorem tomlTrimWhitespace_spec (s : string) :
  (∃ pre post, s = pre +:+ tomlTrimWhitespace s +:+ post ∧
               allBlank pre = true ∧ allBlank post = true) ∧
  (∀ c rest, tomlTrimWhitespace s = String c rest → isBlank c = false) ∧
  (∀ front c, tomlTrimWhitespace s = front +:+ String c "" → isBlank c = false) ∧
  tomlTrimWhitespace (tomlTrimWhitespace s) = tomlTrimWhitespace s ∧
  (allBlank s = true → tomlTrimWhitespace s = "").
Proof.
  unfold tomlTrimWhitespace. split; [|split; [|split; [|split]]].
  - destruct (trimLeft_split s) as (pre & Hs & Hpre).
    destruct (trimRight_split (trimLeft s)) as (post & Ht & Hpost).
    exists pre, post. split; [|done]. by rewrite <- Ht.
  - intros c rest Heq.
    pose proof (trimRight_keeps_start (trimLeft s) (trimLeft_idemp s)) as Hstart.
    rewrite Heq in Hstart. simpl in Hstart.
    destruct (isBlank c) eqn:Hc; [|done].
    apply (f_equal String.length) in Hstart. simpl in Hstart.
    destruct (trimLeft_split rest) as (pre & Hs & _).
    apply (f_equal String.length) in Hs. rewrite slength_app in Hs. lia.
  - intros front c Heq. destruct (isBlank c) eqn:Hc; [|done].
    by destruct (proj2 (trimRight_last (trimLeft s) c Hc) front).
  - rewrite (trimRight_keeps_start (trimLeft s)) by apply trimLeft_idemp.
    apply trimRight_idemp.
  - intros Hall. assert (trimLeft s = "") as ->; [|done].
    induction s as [|c s IH]; [done|]. simpl in *.
    apply andb_true_iff in Hall as [-> Hall]. by apply IH.
Qed.

Lemma unlines_join lines : lines ≠ [] → unlines lines = tomlJoinLines lines +:+ LF.
Proof.
  induction lines as [|l lines IH]; [done|]. intros _. cbn [unlines fold_right].
  fold (unlines lines). rewrite tomlJoinLines_cons, sapp_assoc. f_equal.
  destruct lines as [|l2 lines]; [done|].
  rewrite IH by done. rewrite tomlJoinLines_cons, joinLoop_tail_cons.
  by rewrite !sapp_assoc.
Qed.

Lemma splitLoop_nonempty cur t : splitLoop cur (t +:+ LF) ≠ [].
Proof.
  revert cur. induction t as [|c t IH]; intros cur; [done|].
  rewrite sapp_cons. simpl. destruct (Ascii.eqb c "010"%char); [done|apply IH].
Qed.

Lemma splitLoop_last_LF cur s :
  s ≠ "" → tomlHasSuffix s LF = false → splitLoop cur (s +:+ LF) = splitLoop cur s.
Proof.
  revert cur. induction s as [|c s IH]; intros cur Hne Hend; [done|].
  rewrite sapp_cons. simpl. destruct (Ascii.eqb_spec c "010"%char) as [->|Hc].
  - destruct s as [|c2 s]; [done|]. f_equal. apply IH; [done|].
    apply not_true_is_false. intros H. apply tomlHasSuffix_spec in H as [front H].
    assert (tomlHasSuffix (String "010"%char (String c2 s)) LF = true) as Hs; [|congruence].
    apply tomlHasSuffix_spec. exists (String "010"%char front). by rewrite sapp_cons, <- H.
  - destruct s as [|c2 s].
    + simpl. destruct (String.eqb_spec (cur +:+ String c "") "") as [He|_]; [|done].
      apply (f_equal String.length) in He. rewrite slength_app in He. simpl in He. lia.
    + apply IH; [done|].
      apply not_true_is_false. intros H. apply tomlHasSuffix_spec in H as [front H].
      assert (tomlHasSuffix (String c (String c2 s)) LF = true) as Hs; [|congruence].
      apply tomlHasSuffix_spec. exists (String c front). by rewrite sapp_cons, <- H.
Qed.

Lemma join_split_LF t : tomlJoinLines (tomlSplitLines (t +:+ LF)) = t.
Proof.
  rewrite tomlSplitLines_loop. apply (sapp_cancel_r _ _ LF).
  rewrite <- unlines_join by apply splitLoop_nonempty. apply unlines_splitLoop.
Qed.

Lemma tomlJoinLines_snoc lines l :
  tomlJoinLines (lines ++ [l]) = unlines lines +:+ l.
Proof.
  destruct lines as [|l0 lines]; [done|].
  rewrite tomlJoinLines_app by done. rewrite unlines_join by done.
  rewrite sapp_assoc. by f_equal.
Qed.

(** X19.  Splitting a text into lines and joining them again gives the text back,
    except that one line feed at the very end is lost.  Joining lines and
    splitting the text again gives the lines back, except that an empty last
    line is lost.  No line that [tomlSplitLines] returns holds a line
    feed. *)
Theorem toml_lines_round_trip :
  (∀ t, tomlJoinLines (tomlSplitLines (t +:+ LF)) = t) ∧
  (∀ s, tomlHasSuffix s LF = false → tomlJoinLines (tomlSplitLines s) = s) ∧
  (∀ lines l, Forall (fun l => hasLF l = false) (lines ++ [l]) →
     tomlSplitLines (tomlJoinLines (lines ++ [l]))
     = lines ++ (if String.eqb l "" then [] else [l])) ∧
  (∀ s, Forall (fun l => hasLF l = false) (tomlSplitLines s)).
Proof.
  split; [apply join_split_LF|]. split; [|split].
  - intros s Hend. destruct (String.eqb_spec s "") as [->|Hne]; [done|].
    rewrite tomlSplitLines_loop, <- (splitLoop_last_LF "" s) by done.
    rewrite <- tomlSplitLines_loop. apply join_split_LF.
  - intros lines l Hall. apply Forall_app in Hall as [Hlines Hl].
    apply Forall_cons in Hl as [Hl _].
    rewrite tomlJoinLines_snoc, tomlSplitLines_loop, splitLoop_unlines by done.
    f_equal. rewrite <- (sapp_nil_r l) at 1. rewrite splitLoop_app_noLF by done.
    by rewrite sapp_nil_l.
  - intros s. rewrite tomlSplitLines_loop. by apply splitLoop_noLF.
Qed.

(** ** The TOML adapter *)

(** X20.  [syncToCodex] never parses the file, so it never fails on its content
    and cannot panic: it fails only with an [IOError] (the file cannot be
    read, the directory cannot be made, the file cannot be written), and it
    succeeds otherwise.  A missing file is read as the empty text. *)
Theorem syncToCodex_outcomes (quote : string → string) (servers : list MCPServer)
    (path : string) (w : World) :
  syncToCodex quote servers path w ≠ Panic ∧
  (∀ e, syncToCodex quote servers path w = Err e → kind e = IOError) ∧
  (ReadFileText w path = ReadError → syncToCodex quote servers path w = Err ErrReadConfig) ∧
  (ReadFileText w path ≠ ReadError → MkdirAllDir w path = true → canWrite w path = true →
     ∃ text, syncToCodex quote servers path w = Ok (putText w path text)) ∧
  (ReadFileText w path = ReadNotExist → MkdirAllDir w path = true → canWrite w path = true →
     syncToCodex quote servers path w = Ok (putText w path (codexRewrite quote servers ""))).
Proof.
  unfold syncToCodex. split; [|split; [|split; [|split]]].
  - destruct (ReadFileText w path); simpl; try done;
      destruct (MkdirAllDir w path); simpl; try done; by destruct (canWrite w path).
  - intros e. destruct (ReadFileText w path); simpl;
      [| |by intros [= <-]];
      (destruct (MkdirAllDir w path); simpl; [|by intros [= <-]]);
      (destruct (canWrite w path); simpl; [done|by intros [= <-]]).
  - by intros ->.
  - intros Hread -> ->. destruct (ReadFileText w path); simpl; [by eexists..|done].
  - by intros -> -> ->.
Qed.

Lemma filterLoop_outside lines more :
  (∀ x, x ∈ lines → isMcpHeader x = false) →
  filterLoop false (lines ++ more) = lines ++ filterLoop false more.
Proof.
  induction lines as [|l lines IH]; intros H; [done|].
  rewrite <- app_comm_cons, filterLoop_step. unfold nextState.
  rewrite (H l) by left. simpl. f_equal. apply IH. intros x Hx. apply H. by right.
Qed.

Lemma filterLoop_no_header lines :
  (∀ x, x ∈ lines → isMcpHeader x = false) → filterLoop false lines = lines.
Proof.
  intros H. rewrite <- (app_nil_r lines) at 1. rewrite filterLoop_outside by done.
  by rewrite app_nil_r.
Qed.

Lemma codexRewrite_nil_keep quote existing :
  ownedHeaders existing = [] →
  codexRewrite quote [] existing = tomlJoinLines (tomlSplitLines existing).
Proof.
  intros Hnone. rewrite codexRewrite_spec, combine_spec. simpl.
  rewrite filterLoop_no_header; [done|]. intros x Hx.
  destruct (isMcpHeader x) eqn:Hh; [|done].
  assert (x ∈ ownedHeaders existing) as Hin.
  { unfold ownedHeaders. apply list_elem_of_In, List.filter_In.
    split; [by apply list_elem_of_In|done]. }
  rewrite Hnone in Hin. by apply elem_of_nil in Hin.
Qed.

(** X21.  A sync with no servers removes the owned sections and adds nothing: no
    owned header is left in what it writes, and a file that had no owned
    header keeps its text, up to the line feed at its very end. *)
Theorem codex_sync_nothing (quote : string → string) (existing : string) :
  ownedHeaders (codexRewrite quote [] existing) = [] ∧
  (ownedHeaders existing = [] →
     codexRewrite quote [] existing = tomlJoinLines (tomlSplitLines existing)) ∧
  (∀ t, ownedHeaders (t +:+ LF) = [] → codexRewrite quote [] (t +:+ LF) = t).
Proof.
  split; [|split; [apply codexRewrite_nil_keep|]].
  - rewrite codexRewrite_spec, combine_spec. simpl. unfold ownedHeaders.
    destruct (kept_lines_facts existing) as [Hlf Hnh].
    apply filter_none. intros x Hx. apply tomlSplitLines_join in Hx; [|done].
    by apply Hnh.
  - intros t Hnone. rewrite codexRewrite_nil_keep by done. apply join_split_LF.
Qed.

Lemma tomlHasSuffix_app_r x y c : tomlHasSuffix (x +:+ c) (y +:+ c) = tomlHasSuffix x y.
Proof.
  apply Bool.eq_iff_eq_true. rewrite !tomlHasSuffix_spec. split.
  - intros [front H]. exists front. rewrite <- sapp_assoc in H. by apply sapp_cancel_r in H.
  - intros [front ->]. exists front. by rewrite sapp_assoc.
Qed.

Lemma tomlHasSuffix_weaken x a b :
  tomlHasSuffix x (a +:+ b) = true → tomlHasSuffix x b = true.
Proof.
  rewrite !tomlHasSuffix_spec. intros [front ->]. exists (front +:+ a).
  by rewrite sapp_assoc.
Qed.

Lemma separator_cases kept :
  (kept = "" ∧ separator kept = "") ∨
  (kept ≠ "" ∧ tomlHasSuffix kept (LF +:+ LF) = true ∧ separator kept = "") ∨
  (kept ≠ "" ∧ tomlHasSuffix kept (LF +:+ LF) = false ∧ tomlHasSuffix kept LF = true ∧
   separator kept = LF) ∨
  (kept ≠ "" ∧ tomlHasSuffix kept LF = false ∧ separator kept = LF +:+ LF).
Proof.
  unfold separator. destruct (String.eqb_spec kept "") as [->|Hne]; [by left|].
  right. destruct (tomlHasSuffix kept (LF +:+ LF)) eqn:H2; [by left|].
  right. destruct (tomlHasSuffix kept LF) eqn:H1; [by left|by right].
Qed.

(** With the kept text [kept] and its separator forming the lines [lines],
    the next run rebuilds the same prefix exactly when the kept text does not
    end in three line feeds. *)
Lemma prefix_stable kept lines :
  kept +:+ separator kept = unlines lines →
  tomlJoinLines lines +:+ separator (tomlJoinLines lines) = kept +:+ separator kept
  ↔ tomlHasSuffix kept (LF +:+ LF +:+ LF) = false.
Proof.
  intros HP. destruct lines as [|l lines].
  - simpl in HP. assert (kept = "") as ->.
    { apply (f_equal String.length) in HP. rewrite slength_app in HP. simpl in HP.
      destruct kept; [done|]. simpl in HP. lia. }
    done.
  - set (J2 := tomlJoinLines (l :: lines)).
    assert (kept +:+ separator kept = J2 +:+ LF) as HP2.
    { rewrite HP. by apply unlines_join. }
    assert (kept ≠ "") as Hne.
    { intros ->. apply (f_equal String.length) in HP2. rewrite !slength_app in HP2.
      unfold separator in HP2. simpl in HP2. lia. }
    pose proof (separator_blank_line kept Hne) as Hend.
    rewrite HP2 in Hend.
    change (LF +:+ LF) with (LF +:+ LF) in Hend.
    rewrite (tomlHasSuffix_app_r J2 LF LF) in Hend.
    assert (J2 ≠ "") as Hne2.
    { intros HJ. rewrite HJ in Hend. done. }
    assert (tomlHasSuffix J2 (LF +:+ LF) = tomlHasSuffix kept (LF +:+ LF +:+ LF)) as Hsame.
    { rewrite <- (tomlHasSuffix_app_r J2 (LF +:+ LF) LF), <- HP2.
      change ((LF +:+ LF) +:+ LF) with (LF +:+ LF +:+ LF).
      destruct (separator_cases kept) as [[? _]|[(_ & H2 & ->)|[(_ & H2 & H1 & ->)|(_ & H1 & ->)]]].
      - done.
      - by rewrite sapp_nil_r.
      - change (LF +:+ LF +:+ LF) with ((LF +:+ LF) +:+ LF) at 1.
        rewrite tomlHasSuffix_app_r, H2. symmetry. apply not_true_is_false. intros H3.
        apply (tomlHasSuffix_weaken kept LF (LF +:+ LF)) in H3. congruence.
      - rewrite <- sapp_assoc.
        change (LF +:+ LF +:+ LF) with ((LF +:+ LF) +:+ LF) at 1.
        rewrite tomlHasSuffix_app_r, tomlHasSuffix_app_r, H1.
        symmetry. apply not_true_is_false. intros H3.
        apply (tomlHasSuffix_weaken kept (LF +:+ LF) LF) in H3. congruence. }
    rewrite <- Hsame, HP2. unfold separator at 1.
    destruct (String.eqb_spec J2 "") as [|_]; [done|]. rewrite Hend.
    destruct (tomlHasSuffix J2 (LF +:+ LF)).
    + split; [|done]. intros H. apply sapp_cancel_l in H. done.
    + done.
Qed.

(** X22.  When the TOML adapter is idempotent, for a sync of at least one
    server.  Running the adapter again on its own output writes the same
    text if and only if the text kept from the file (its lines outside the
    owned sections, joined) does not end in three line feeds. *)
Theorem codex_idempotent_iff (quote : string → string) (servers : list MCPServer)
    (existing : string) :
  (∀ s, hasLF (quote s) = false) →
  Forall (fun s => hasLF (MCPServer.Name s) = false) servers →
  servers ≠ [] →
  codexRewrite quote servers (codexRewrite quote servers existing)
  = codexRewrite quote servers existing
  ↔ tomlHasSuffix (tomlJoinLines (filterLoop false (tomlSplitLines existing)))
      (LF +:+ LF +:+ LF) = false.
Proof.
  intros Hq Hnames Hservers.
  set (K := filterLoop false (tomlSplitLines existing)).
  set (sections := (fun s => unlines (sectionLines quote s)) <$> servers).
  set (blocks := concat ((fun s => sectionLines quote s ++ [""]) <$> servers)).
  assert (sections ≠ []) as Hsections by (by destruct servers).
  destruct (kept_lines_facts existing) as [Hlf Hnh]. fold K in Hlf, Hnh.
  destruct (kept_prefix_lines K Hlf Hnh) as (L & HP & HLlf & HLnh).
  assert (∀ kept, combine kept sections
                  = (tomlJoinLines kept +:+ separator (tomlJoinLines kept))
                    +:+ unlines sections) as Hcombine.
  { intros kept. rewrite combine_spec. clearbody sections.
    destruct sections; [done|]. by rewrite sapp_assoc. }
  assert (codexRewrite quote servers existing
          = (tomlJoinLines K +:+ separator (tomlJoinLines K)) +:+ unlines sections) as H1.
  { rewrite codexRewrite_spec. apply Hcombine. }
  assert (unlines sections = unlines blocks) as Hblocks by apply blocks_lines.
  assert (codexRewrite quote servers (codexRewrite quote servers existing)
          = (tomlJoinLines L +:+ separator (tomlJoinLines L)) +:+ unlines sections) as H2.
  { rewrite H1 at 1. rewrite HP, Hblocks, <- unlines_app.
    rewrite codexRewrite_spec. fold sections.
    rewrite tomlSplitLines_unlines
      by (apply Forall_app; split; [done|by apply blocks_noLF]).
    rewrite filterLoop_outside by done. unfold blocks at 1.
    rewrite filterLoop_blocks, app_nil_r. by rewrite Hcombine, Hblocks. }
  rewrite H2, H1. rewrite <- (prefix_stable (tomlJoinLines K) L HP). split.
  - apply sapp_cancel_r.
  - by intros ->.
Qed.

Lemma codex_idempotent_iff_witness :
  codexRewrite strconvQuote [fsServer; apiServer]
    (codexRewrite strconvQuote [fsServer; apiServer] (modelLine +:+ LF))
  = codexRewrite strconvQuote [fsServer; apiServer] (modelLine +:+ LF).
Proof.
  refine (proj2 (codex_idempotent_iff strconvQuote [fsServer; apiServer] (modelLine +:+ LF)
                   strconvQuote_noLF _ _) _).
  - by repeat constructor.
  - discriminate.
  - by vm_compute.
Defined.

Lemma registered_paths_frame quote c :
  c ∈ registered quote →
  (∀ w p v, Client.GlobalPath c (putJSON w p v) = Client.GlobalPath c w) ∧
  (∀ localPath w p v, Client.LocalPath c = Some localPath →
                      localPath (putJSON w p v) = localPath w).
Proof.
  intros Hin. each_registered Hin; cbn [Client.GlobalPath Client.LocalPath];
    (split; [done|]); intros localPath w p v Hlocal; try discriminate Hlocal;
    by injection Hlocal as <-.
Qed.

(** X23.  Client-level idempotence for the clients whose file is JSON.  When a
    [Sync] of a registered client other than [codex] succeeds on a file that
    can be read, running the same [Sync] again in the state it left succeeds,
    answers the same path and changes nothing. *)
Theorem Sync_json_idempotent (quote : string → string) (c : Client)
    (servers : list MCPServer) (local : bool) (w w1 : World) (path : string) :
  c ∈ registered quote →
  Client.Name c ≠ "codex" →
  path ∉ World.unreadable w →
  Sync c servers local w = Ok (path, w1) →
  Sync c servers local w1 = Ok (path, w1).
Proof.
  intros Hin Hname Hread Hsync.
  destruct (registered_adapter quote c Hin) as [[a Ha]|[Hcodex _]]; [|done].
  destruct (registered_paths_frame quote c Hin) as [Hglobal Hlocal].
  unfold Sync in *.
  destruct (if local then _ else _) as [p| |] eqn:Hpath in Hsync; simpl in Hsync;
    try discriminate.
  rewrite Ha in Hsync.
  destruct (runJSON a servers p w) as [w'| |] eqn:Hrun; simpl in Hsync; try discriminate.
  injection Hsync as -> ->.
  pose proof (runJSON_put _ _ _ _ _ Hrun) as [v Hw1].
  assert ((if local
           then if negb (Client.SupportsLocal c)
                then Err (ErrNoLocal (Client.DisplayName c))
                else match Client.LocalPath c with
                     | Some localPath => localPath w1
                     | None => Panic
                     end
           else Client.GlobalPath c w1) = Ok path) as ->.
  { rewrite <- Hpath, Hw1. destruct local; [|apply Hglobal].
    destruct (negb (Client.SupportsLocal c)); [done|].
    destruct (Client.LocalPath c) as [localPath|] eqn:Hl; [|done]. by apply Hlocal. }
  simpl. rewrite Ha. by rewrite (json_adapter_idempotent a servers path w w1 Hread Hrun).
Qed.


(** ** resyncAll: accounting *)

Lemma collectServers_errors cfg client names acc errors :
  ∃ extra, snd (collectServers cfg client names acc errors) = errors ++ extra ∧
           Forall (fun f => recordFailure f = false ∧ failureClient f = client) extra.
Proof.
  revert acc errors. induction names as [|name names IH]; intros acc errors.
  - exists []. by rewrite app_nil_r.
  - cbn [collectServers]. destruct (GetServer cfg name) as [server|e|].
    + apply IH.
    + destruct (IH acc (errors ++ [FailServerNotFound client name])) as (extra & -> & Hall).
      exists (FailServerNotFound client name :: extra). rewrite <- app_assoc.
      split; [done|]. by constructor.
    + destruct (IH acc (errors ++ [FailServerNotFound client name])) as (extra & -> & Hall).
      exists (FailServerNotFound client name :: extra). rewrite <- app_assoc.
      split; [done|]. by constructor.
Qed.

Lemma collectServers_empty_store cfg client names acc errors :
  elems (Config.Servers cfg) = [] →
  fst (collectServers cfg client names acc errors) = acc.
Proof.
  intros Hempty. revert errors. induction names as [|name names IH]; intros errors; [done|].
  cbn [collectServers]. unfold GetServer. rewrite Hempty. simpl. apply IH.
Qed.

Lemma filter_recordFailure_none extra client :
  Forall (fun f => recordFailure f = false ∧ failureClient f = client) extra →
  List.filter recordFailure extra = [].
Proof.
  induction 1 as [|f extra [Hf _] _ IH]; [done|]. simpl. by rewrite Hf.
Qed.

Lemma resyncLoop_accounting quote cfg l w errors n w' n' errs' :
  resyncLoop quote cfg l w errors n = Finished w' n' errs' →
  ∃ extra, errs' = errors ++ extra ∧
           n' + length (List.filter recordFailure extra) = n + length l ∧
           Forall (fun f => failureClient f ∈ SyncedClient.Name <$> l) extra.
Proof.
  revert w errors n. induction l as [|sc l IH]; intros w errors n.
  - intros [= <- <- <-]. exists []. rewrite app_nil_r. split; [done|]. split; [simpl; lia|].
    constructor.
  - cbn [resyncLoop].
    assert (∀ w0 errors0 n0 (mid : list SyncFailure) k,
              errors0 = errors ++ mid →
              n0 + length (List.filter recordFailure mid) = n + k → k = 1 →
              Forall (fun f => failureClient f = SyncedClient.Name sc) mid →
              resyncLoop quote cfg l w0 errors0 n0 = Finished w' n' errs' →
              ∃ extra, errs' = errors ++ extra ∧
                       n' + length (List.filter recordFailure extra) = n + length (sc :: l) ∧
                       Forall (fun f => failureClient f ∈ SyncedClient.Name <$> sc :: l) extra)
      as Hstep.
    { intros w0 errors0 n0 mid k -> Hcount -> Hmid Hrun.
      destruct (IH _ _ _ Hrun) as (extra & -> & Hn & Hall).
      exists (mid ++ extra). rewrite <- app_assoc. split; [done|].
      rewrite List.filter_app, length_app. split; [simpl; lia|].
      apply Forall_app. split.
      - eapply Forall_impl; [exact Hmid|]. intros f ->. rewrite fmap_cons. left.
      - eapply Forall_impl; [exact Hall|]. intros f Hf. rewrite fmap_cons. by right. }
    destruct (GetClient quote (SyncedClient.Name sc)) as [client|e|]; [| |done].
    + destruct (if 0 <? len (SyncedClient.Servers sc)
                then collectServers cfg (SyncedClient.Name sc)
                       (elems (SyncedClient.Servers sc)) None errors
                else (ListServers cfg, errors)) as [serversToSync errors1] eqn:Hcollect.
      assert (∃ mid, errors1 = errors ++ mid ∧
                     Forall (fun f => recordFailure f = false ∧
                                      failureClient f = SyncedClient.Name sc) mid)
        as (mid & -> & Hmid).
      { destruct (0 <? len (SyncedClient.Servers sc)).
        - pose proof (collectServers_errors cfg (SyncedClient.Name sc)
                        (elems (SyncedClient.Servers sc)) None errors) as (mid & Hs & Hall).
          rewrite Hcollect in Hs. by exists mid.
        - injection Hcollect as _ <-. exists []. by rewrite app_nil_r. }
      assert (Forall (fun f => failureClient f = SyncedClient.Name sc) mid) as Hmid'.
      { eapply Forall_impl; [exact Hmid|]. by intros f [_ ?]. }
      pose proof (filter_recordFailure_none _ _ Hmid) as Hnone.
      destruct (len serversToSync =? 0).
      * apply (Hstep _ _ _ (mid ++ [FailNoServers (SyncedClient.Name sc)]) 1);
          [by rewrite app_assoc| |done|].
        -- rewrite List.filter_app, Hnone. simpl. lia.
        -- apply Forall_app. split; [done|]. by constructor.
      * destruct (Sync client (elems serversToSync) (SyncedClient.Local sc) w)
          as [[p w1]|e|]; [| |done].
        -- apply (Hstep _ _ _ mid 1); [done| |done|done]. rewrite Hnone. simpl. lia.
        -- apply (Hstep _ _ _ (mid ++ [FailClient (SyncedClient.Name sc) e]) 1);
             [by rewrite app_assoc| |done|].
           ++ rewrite List.filter_app, Hnone. simpl. lia.
           ++ apply Forall_app. split; [done|]. by constructor.
    + apply (Hstep _ _ _ [FailClient (SyncedClient.Name sc) e] 1); [done| |done|].
      * simpl. lia.
      * by constructor.
Qed.

Lemma resyncAll_accounting_aux quote cfg w w' n errors :
  resyncAll quote cfg w = Finished w' n errors →
  n + length (List.filter recordFailure errors) = len (GetSyncedClients cfg).
Proof.
  unfold resyncAll. destruct (len (GetSyncedClients cfg) =? 0) eqn:Hlen.
  - intros [= <- <- <-]. apply Nat.eqb_eq in Hlen. by rewrite Hlen.
  - intros Hrun. apply resyncLoop_accounting in Hrun as (extra & -> & Hn & Hall).
    simpl in *. unfold len. lia.
Qed.

(** X24.  When [resyncAll] returns, every record was either counted as synced or
    reported with exactly one failure that ended its handling (an unknown
    client, a failed adapter, no servers to sync); the reports of servers
    not found come on top of that.  Every failure names the client of a
    record. *)
Theorem resyncAll_accounting (quote : string → string) (cfg : Config) (w w' : World)
    (successCount : nat) (errors : list SyncFailure) :
  resyncAll quote cfg w = Finished w' successCount errors →
  successCount + length (List.filter recordFailure errors) = len (GetSyncedClients cfg) ∧
  Forall (fun f => failureClient f ∈ SyncedClient.Name <$> elems (GetSyncedClients cfg))
    errors.
Proof.
  unfold resyncAll. destruct (len (GetSyncedClients cfg) =? 0) eqn:Hlen.
  - intros [= <- <- <-]. apply Nat.eqb_eq in Hlen. rewrite Hlen. split; [done|constructor].
  - intros Hrun. apply resyncLoop_accounting in Hrun as (extra & -> & Hn & Hall).
    split; [|done]. simpl in *. unfold len. lia.
Qed.

Lemma resyncAll_accounting_witness :
  2 + length (List.filter recordFailure
                [FailServerNotFound "zed" "gone"; FailNoServers "zed"])
  = len (GetSyncedClients staleConfig) ∧
  Forall (fun f => failureClient f ∈ SyncedClient.Name <$> elems (GetSyncedClients staleConfig))
    [FailServerNotFound "zed" "gone"; FailNoServers "zed"].
Proof.
  destruct (resyncAll strconvQuote staleConfig freshWorld) as [w n errs|] eqn:Hrun;
    [|by vm_compute in Hrun].
  assert (n = 2 ∧ errs = [FailServerNotFound "zed" "gone"; FailNoServers "zed"]) as [-> ->].
  { vm_compute in Hrun. by injection Hrun as _ <- <-. }
  exact (resyncAll_accounting strconvQuote staleConfig freshWorld w _ _ Hrun).
Defined.

Lemma resyncLoop_empty_store quote cfg l w errors n :
  elems (Config.Servers cfg) = [] →
  ∃ errs, resyncLoop quote cfg l w errors n = Finished w n errs.
Proof.
  intros Hempty. revert errors. induction l as [|sc l IH]; intros errors; [by eexists|].
  cbn [resyncLoop].
  destruct (GetClient quote (SyncedClient.Name sc)) as [client|e|] eqn:Hc.
  - destruct (if 0 <? len (SyncedClient.Servers sc)
              then collectServers cfg (SyncedClient.Name sc)
                     (elems (SyncedClient.Servers sc)) None errors
              else (ListServers cfg, errors)) as [serversToSync errors1] eqn:Hcollect.
    assert (len serversToSync = 0) as ->; [|apply IH].
    destruct (0 <? len (SyncedClient.Servers sc)).
    + pose proof (collectServers_empty_store cfg (SyncedClient.Name sc)
                    (elems (SyncedClient.Servers sc)) None errors Hempty) as Hfst.
      rewrite Hcollect in Hfst. simpl in Hfst. by subst.
    + injection Hcollect as <- _. unfold len, ListServers. by rewrite Hempty.
  - apply IH.
  - unfold GetClient in Hc. by destruct (clientRegistry quote !! SyncedClient.Name sc).
Qed.

(** X25.  With no server in the store, [resyncAll] calls no adapter: it returns,
    the machine is as it was, no record is counted as synced and every
    record is reported. *)
Theorem resyncAll_empty_store (quote : string → string) (cfg : Config) (w : World) :
  len (ListServers cfg) = 0 →
  ∃ errors, resyncAll quote cfg w = Finished w 0 errors ∧
            length (List.filter recordFailure errors) = len (GetSyncedClients cfg).
Proof.
  intros Hlen.
  assert (elems (Config.Servers cfg) = []) as Hempty.
  { unfold len, ListServers in Hlen. by destruct (elems (Config.Servers cfg)). }
  destruct (resyncAll quote cfg w) as [w' n errors|] eqn:Hrun.
  - pose proof Hrun as Hrun'. apply resyncAll_accounting_aux in Hrun' as Hcount.
    unfold resyncAll in Hrun. destruct (len (GetSyncedClients cfg) =? 0).
    + injection Hrun as <- <- <-. by exists [].
    + destruct (resyncLoop_empty_store quote cfg (elems (GetSyncedClients cfg)) w [] 0 Hempty)
        as [errs Hloop].
      rewrite Hloop in Hrun. injection Hrun as <- <- <-. exists errs. split; [done|].
      simpl in Hcount. lia.
  - unfold resyncAll in Hrun. destruct (len (GetSyncedClients cfg) =? 0); [done|].
    destruct (resyncLoop_empty_store quote cfg (elems (GetSyncedClients cfg)) w [] 0 Hempty)
      as [errs Hloop]. congruence.
Qed.

Lemma resyncAll_empty_store_witness :
  ∃ errors, resyncAll strconvQuote emptyStore freshWorld = Finished freshWorld 0 errors ∧
            length (List.filter recordFailure errors) = len (GetSyncedClients emptyStore).
Proof. apply (resyncAll_empty_store strconvQuote emptyStore freshWorld). reflexivity. Defined.

(** ** package cmd: the commands *)




Lemma GetServer_missing cfg name :
  name ∉ serverNameList cfg → GetServer cfg name = Err (ErrServerNotFound name).
Proof.
  intros Hnotin. unfold GetServer.
  rewrite (proj2 (findServer_None (elems (Config.Servers cfg)) name)); [done|].
  intros s Hs Heq. apply Hnotin. apply list_elem_of_fmap. by exists s.
Qed.

Lemma lookupServers_missing cfg names name serversToSync serverNames :
  name ∈ names → name ∉ serverNameList cfg →
  ∃ missing, missing ∈ names ∧ (missing ∉ serverNameList cfg) ∧
             lookupServers cfg names serversToSync serverNames
             = Err (ErrServerNotFound missing).
Proof.
  intros Hin Hnotin. revert serversToSync serverNames.
  induction names as [|n names IH]; intros serversToSync serverNames;
    [by apply elem_of_nil in Hin|].
  cbn [lookupServers].
  destruct (decide (n ∈ serverNameList cfg)) as [Hn|Hn].
  - assert (name ∈ names) as Hin'.
    { apply elem_of_cons in Hin as [->|Hin]; [done|done]. }
    unfold GetServer.
    destruct (findServer (elems (Config.Servers cfg)) n) as [server|] eqn:Hfind.
    + simpl. destruct (IH Hin' (append serversToSync server) (append serverNames n))
        as (missing & Hm & Hnot & Hrun).
      exists missing. split; [by right|]. by split.
    + exfalso. apply list_elem_of_fmap in Hn as (s & -> & Hs).
      by apply (proj1 (findServer_None _ _) Hfind s).
  - exists n. split; [left|]. split; [done|]. by rewrite GetServer_missing.
Qed.

(** X27.  [mcpr client sync NAME].  With [--servers], one name that is not in the
    store ends the command with the store's [NotFound] error before
    anything is written: unlike [resyncAll], the command never syncs what is
    left of the list.  The command never returns the error of [resyncAll].
    Whenever it returns an error other than the one of saving the sync
    record, every file is as it was; that one error is returned after the
    client file was written. *)
Theorem runClientSync_outcomes (quote : string → string) (clientSyncServers : slice string)
    (clientSyncLocal : bool) (clientName : string) (rest : list string) (w : World) :
  (∀ w' err,
     runClientSync quote clientSyncServers clientSyncLocal (clientName :: rest) w
     = Returned w' (Some err) →
     err ≠ CmdSomeFailed ∧ ((∀ e, err ≠ CmdSaveSynced e) → w' = w)) ∧
  (∀ cfg client name,
     Load w = Ok cfg → GetClient quote clientName = Ok client →
     name ∈ elems clientSyncServers → name ∉ serverNameList cfg →
     ∃ missing, missing ∈ elems clientSyncServers ∧ (missing ∉ serverNameList cfg) ∧
                runClientSync quote clientSyncServers clientSyncLocal (clientName :: rest) w
                = Returned w (Some (CmdReturned (ErrServerNotFound missing)))) ∧
  (∀ cfg client,
     Load w = Ok cfg → GetClient quote clientName = Ok client →
     len clientSyncServers = 0 → len (ListServers cfg) = 0 →
     runClientSync quote clientSyncServers clientSyncLocal (clientName :: rest) w
     = Returned w (Some CmdNoServers)).
Proof.
  split; [|split].
  - intros w' err. unfold runClientSync.
    destruct (Load w) as [cfg|e|]; [| |done]; [|by intros [= <- <-]].
    destruct (GetClient quote clientName) as [client|e|]; [| |done]; [|by intros [= <- <-]].
    destruct (if 0 <? len clientSyncServers then _ else _)
      as [[serversToSync serverNames]|e|]; [| |done]; [|by intros [= <- <-]].
    destruct (len serversToSync =? 0); [by intros [= <- <-]|].
    destruct (Sync client (elems serversToSync) clientSyncLocal w) as [[p w1]|e|];
      [| |done]; [|by intros [= <- <-]].
    destruct (Save w1 _) as [cfg1 [w2|e|]]; [done| |done].
    intros [= <- <-]. split; [done|]. intros H. by destruct (H e).
  - intros cfg client name Hload Hclient Hin Hnotin. unfold runClientSync.
    rewrite Hload, Hclient.
    assert ((0 <? len clientSyncServers) = true) as ->.
    { apply Nat.ltb_lt. unfold len. destruct (elems clientSyncServers); [|simpl; lia].
      by apply elem_of_nil in Hin. }
    destruct (lookupServers_missing cfg (elems clientSyncServers) name None None Hin Hnotin)
      as (missing & Hm & Hnot & ->).
    by exists missing.
  - intros cfg client Hload Hclient Hnone Hempty. unfold runClientSync.
    rewrite Hload, Hclient, Hnone. simpl. by rewrite Hempty.
Qed.

Lemma Save_Ok_inv w c c' w' :
  Save w c = (c', Ok w') →
  w' = putJSON w (Config.path c') (encConfig c') ∧
  (Config.path c ≠ "" → Config.path c' = Config.path c).
Proof.
  unfold Save. destruct (String.eqb_spec (Config.path c) "") as [Hempty|Hne].
  - destruct (getGlobalConfigPath w) as [p| |]; [|by intros [= _ ?]..].
    destruct (MkdirAllDir w p); simpl; [|by intros [= _ ?]].
    destruct (canWrite w p); simpl; [|by intros [= _ ?]].
    by intros [= <- <-].
  - destruct (MkdirAllDir w _); simpl; [|by intros [= _ ?]].
    destruct (canWrite w _); simpl; [|by intros [= _ ?]].
    by intros [= <- <-].
Qed.

(** X28.  [mcpr client remove NAME] writes no client file.  When it returns an
    error, every file is as it was: for an unknown client, and for a client
    that is not in the sync list under the flag given.  When it succeeds,
    the one file that may differ is the store it loaded. *)
Theorem runClientRemove_outcomes (quote : string → string) (clientSyncLocal : bool)
    (args : list string) (w : World) :
  (∀ w' err, runClientRemove quote clientSyncLocal args w = Returned w' (Some err) →
             w' = w) ∧
  (∀ w', runClientRemove quote clientSyncLocal args w = Returned w' None →
         World.textFiles w' = World.textFiles w ∧
         ∃ cfg, Load w = Ok cfg ∧
                ∀ p, p ≠ Config.path cfg →
                     World.jsonFiles w' !! p = World.jsonFiles w !! p) ∧
  (∀ clientName rest cfg client,
     args = clientName :: rest →
     GetClient quote clientName = Ok client → Load w = Ok cfg →
     (clientName, clientSyncLocal) ∉ syncedKeys cfg →
     runClientRemove quote clientSyncLocal args w
     = Returned w (Some (CmdNotSynced clientName clientSyncLocal))).
Proof.
  split; [|split].
  - intros w' err. unfold runClientRemove. destruct args as [|clientName rest]; [done|].
    destruct (GetClient quote clientName) as [client|e|]; [| |done]; [|by intros [= <- <-]].
    destruct (Load w) as [cfg|e|]; [| |done]; [|by intros [= <- <-]].
    destruct (GetSyncedClient cfg clientName clientSyncLocal); [|by intros [= <- <-]].
    destruct (Save w _) as [cfg1 [w2|e|]]; [done| |done].
    by intros [= <- <-].
  - intros w'. unfold runClientRemove. destruct args as [|clientName rest]; [done|].
    destruct (GetClient quote clientName) as [client|e|]; [|done..].
    destruct (Load w) as [cfg|e|] eqn:Hload; [|done..].
    destruct (GetSyncedClient cfg clientName clientSyncLocal); [|done].
    destruct (Save w _) as [cfg1 [w2|e|]] eqn:Hsave; [|done..].
    intros [= <-]. pose proof Hsave as Hsave0. apply Save_Ok_inv in Hsave as [-> Hpath].
    split; [done|]. exists cfg. split; [done|]. intros p Hp.
    apply putJSON_lookup_ne.
    assert (Config.path (RemoveSyncedClient cfg clientName clientSyncLocal) = Config.path cfg)
      as Hsame.
    { unfold RemoveSyncedClient. by destruct (removeFirstSynced _ _ _). }
    destruct (String.eqb_spec (Config.path cfg) "") as [Hempty|Hne].
    + exfalso. pose proof (Load_unbound w cfg Hload Hempty) as Hhome.
      unfold Save, getGlobalConfigPath in Hsave0. rewrite Hsame, Hempty, Hhome in Hsave0.
      discriminate.
    + rewrite Hpath by (by rewrite Hsame). by rewrite Hsame.
  - intros clientName rest cfg client -> Hclient Hload Hnotin. unfold runClientRemove.
    rewrite Hclient, Hload. unfold GetSyncedClient.
    by rewrite (proj2 (findSynced_None _ _ _) Hnotin).
Qed.

(** ** package cmd: the default name and the KEY=VALUE flags *)

Lemma indexByte_app_None c a b :
  indexByte c (a +:+ b) = None ↔ indexByte c a = None ∧ indexByte c b = None.
Proof.
  induction a as [|x a IH]; [by split; [|intros [_ ?]]|].
  rewrite sapp_cons. simpl. destruct (Ascii.eqb x c).
  - split; [done|by intros [? _]].
  - rewrite !fmap_None. apply IH.
Qed.

Lemma indexByte_first c a b :
  indexByte c a = None → indexByte c (a +:+ String c b) = Some (String.length a).
Proof.
  induction a as [|x a IH].
  - intros _. rewrite sapp_nil_l. simpl. by rewrite Ascii.eqb_refl.
  - rewrite sapp_cons. simpl. destruct (Ascii.eqb x c); [done|].
    rewrite fmap_None. intros Ha. by rewrite IH.
Qed.

Lemma indexByte_split c s idx :
  indexByte c s = Some idx →
  ∃ a b, s = a +:+ String c b ∧ indexByte c a = None ∧ String.length a = idx.
Proof.
  revert idx. induction s as [|x s IH]; intros idx; simpl; [done|].
  destruct (Ascii.eqb_spec x c) as [->|Hne].
  - intros [= <-]. by exists "", s.
  - destruct (indexByte c s) as [i|] eqn:Hi; [|done]. simpl. intros [= <-].
    destruct (IH i eq_refl) as (a & b & -> & Ha & Hlen).
    exists (String x a), b. split; [done|]. simpl.
    destruct (Ascii.eqb_spec x c) as [|_]; [done|]. rewrite Ha. split; [done|]. by rewrite Hlen.
Qed.

Lemma sliceTo_app a b : sliceTo (String.length a) (a +:+ b) = a.
Proof. apply substring_0_app. Qed.

Lemma sliceFrom_app a b : sliceFrom (String.length a) (a +:+ b) = b.
Proof.
  unfold sliceFrom. rewrite substring_skip_app, slength_app.
  replace (String.length a + String.length b - String.length a) with (String.length b) by lia.
  apply substring_0_all.
Qed.

(** [cutAt] keeps the text before the first separator. *)
Lemma cutAt_spec c s :
  (∃ r, s = cutAt c s +:+ r) ∧
  indexByte c (cutAt c s) = None ∧
  (indexByte c s = None → cutAt c s = s) ∧
  (∀ a b, s = a +:+ String c b → indexByte c a = None → cutAt c s = a).
Proof.
  unfold cutAt. destruct (indexByte c s) as [idx|] eqn:Hi.
  - destruct (indexByte_split c s idx Hi) as (a & b & -> & Ha & <-).
    rewrite sliceTo_app. split; [by exists (String c b)|]. split; [done|]. split; [done|].
    intros a' b' Heq Ha'. pose proof (indexByte_first c a' b' Ha') as H1.
    rewrite <- Heq, (indexByte_first c a b Ha) in H1. injection H1 as Hlen.
    rewrite <- (sliceTo_app a (String c b)), Heq, Hlen. apply sliceTo_app.
  - split; [exists ""; by rewrite sapp_nil_r|]. split; [done|]. split; [done|].
    intros a b -> Ha. by rewrite (indexByte_first c a b Ha) in Hi.
Qed.

Lemma HasPrefix_spec s pre : HasPrefix s pre = true ↔ ∃ rest, s = pre +:+ rest.
Proof. apply tomlHasPrefix_spec. Qed.

(** X29.  The default name of [mcpr add http] holds no slash and no colon.  For a
    URL made of [https://] or [http://] or neither, a host without slash or
    colon, and an optional port and path, it is the host. *)
Theorem extractHostFromURL_spec (url : string) :
  indexByte "/" (extractHostFromURL url) = None ∧
  indexByte ":" (extractHostFromURL url) = None ∧
  (∀ host port path,
     indexByte "/" host = None → indexByte ":" host = None →
     port = "" ∨ (∃ digits, port = ":" +:+ digits ∧ indexByte "/" digits = None) →
     path = "" ∨ (∃ p, path = "/" +:+ p) →
     url = "https://" +:+ host +:+ port +:+ path ∨
     url = "http://" +:+ host +:+ port +:+ path ∨
     (url = host +:+ port +:+ path ∧
      HasPrefix url "https://" = false ∧ HasPrefix url "http://" = false) →
     extractHostFromURL url = host).
Proof.
  unfold extractHostFromURL.
  set (s1 := if HasPrefix url "https://" then sliceFrom 8 url
             else if HasPrefix url "http://" then sliceFrom 7 url else url).
  destruct (cutAt_spec "/" s1) as ([r1 Hs1] & Hno1 & Hnone1 & Hfirst1).
  destruct (cutAt_spec ":" (cutAt "/" s1)) as ([r2 Hs2] & Hno2 & Hnone2 & Hfirst2).
  split; [|split; [done|]].
  - rewrite Hs2 in Hno1. by apply indexByte_app_None in Hno1 as [? _].
  - intros host port path Hslash Hcolon Hport Hpath Hurl.
    assert (s1 = host +:+ port +:+ path) as Hs1'.
    { subst s1. destruct Hurl as [->|[->|(-> & -> & ->)]]; [| |done].
      - rewrite (proj2 (HasPrefix_spec _ "https://")) by by eexists.
        apply (sliceFrom_app "https://").
      - assert (HasPrefix ("http://" +:+ host +:+ port +:+ path) "https://" = false) as ->.
        { apply not_true_is_false. intros H. apply HasPrefix_spec in H as [rest H].
          discriminate H. }
        rewrite (proj2 (HasPrefix_spec _ "http://")) by by eexists.
        apply (sliceFrom_app "http://"). }
    assert (indexByte "/" (host +:+ port) = None) as Hhp.
    { apply indexByte_app_None. split; [done|].
      destruct Hport as [->|(digits & -> & Hd)]; [done|].
      rewrite sapp_cons, sapp_nil_l. simpl. by rewrite Hd. }
    assert (cutAt "/" s1 = host +:+ port) as Hs2'.
    { destruct Hpath as [->|(p & ->)].
      - rewrite sapp_nil_r in Hs1'. rewrite Hnone1; [done|]. by rewrite Hs1'.
      - apply (Hfirst1 _ p); [|done]. by rewrite Hs1', sapp_assoc. }
    destruct Hport as [->|(digits & -> & Hd)].
    + rewrite sapp_nil_r in Hs2'. rewrite Hnone2; [done|]. by rewrite Hs2'.
    + by apply (Hfirst2 _ digits).
Qed.

Lemma parsePairs_snoc pairs e :
  parsePairs (pairs ++ [e])
  = match splitKV e with
    | Some (k, v) => <[k := v]> (parsePairs pairs)
    | None => parsePairs pairs
    end.
Proof. unfold parsePairs. by rewrite fold_left_app. Qed.

(** X30.  The [--env] and [--header] flags.  A flag [KEY=VALUE] is split at its
    first [=], so the value may hold further ones; a flag without [=] is
    dropped without an error; a later flag replaces an earlier one with the
    same key; and when no flag is well formed the server record keeps a nil
    map. *)
Theorem parsePairs_spec :
  (∀ k v, indexByte "=" k = None → splitKV (k +:+ "=" +:+ v) = Some (k, v)) ∧
  (∀ e, splitKV e = None ↔ indexByte "=" e = None) ∧
  (∀ pairs k v, indexByte "=" k = None →
     parsePairs (pairs ++ [k +:+ "=" +:+ v]) !! k = Some v ∧
     ∀ k', k' ≠ k → parsePairs (pairs ++ [k +:+ "=" +:+ v]) !! k' = parsePairs pairs !! k') ∧
  (∀ pairs, Forall (fun e => indexByte "=" e = None) pairs →
     unlessEmpty (parsePairs pairs) = None).
Proof.
  assert (∀ k v, indexByte "=" k = None → splitKV (k +:+ "=" +:+ v) = Some (k, v)) as Hkv.
  { intros k v Hk. unfold splitKV.
    change (k +:+ "=" +:+ v) with (k +:+ String "=" v).
    rewrite (indexByte_first "=" k v Hk), sliceTo_app. f_equal. f_equal.
    change (k +:+ String "=" v) with (k +:+ "=" +:+ v). rewrite <- sapp_assoc.
    replace (S (String.length k)) with (String.length (k +:+ "="))
      by (rewrite slength_app; simpl; lia).
    apply sliceFrom_app. }
  split; [exact Hkv|]. split; [|split].
  - intros e. unfold splitKV. by destruct (indexByte "=" e).
  - intros pairs k v Hk. rewrite parsePairs_snoc, (Hkv k v Hk).
    split; [apply lookup_insert_eq|]. intros k' Hne. by apply lookup_insert_ne.
  - intros pairs Hall.
    assert (parsePairs pairs = ∅) as ->; [|done].
    induction pairs as [|e pairs IH] using rev_ind; [done|].
    apply Forall_app in Hall as [Hall He]. apply Forall_cons in He as [He _].
    rewrite parsePairs_snoc. unfold splitKV. rewrite He. by apply IH.
Qed.

Lemma Sync_json_idempotent_witness :
  ∃ c path w1, GetClient strconvQuote "zed" = Ok c ∧
               Sync c [fsServer; apiServer] false themedWorld = Ok (path, w1) ∧
               Sync c [fsServer; apiServer] false w1 = Ok (path, w1).
Proof.
  pose (c := Client.mk "zed" "Zed" (underHome [".config"; "zed"; "settings.json"]) None false
               syncToZed).
  assert (c ∈ registered strconvQuote) as Hin.
  { unfold registered. do 4 (apply elem_of_cons; right). apply elem_of_cons. by left. }
  destruct (Sync c [fsServer; apiServer] false themedWorld) as [[path w1]| |] eqn:Hs;
    [|by vm_compute in Hs..].
  exists c, path, w1. split; [exact (GetClient_Ok_intro strconvQuote c Hin)|].
  split; [done|].
  apply (Sync_json_idempotent strconvQuote c _ false themedWorld w1 path Hin); [done| |done].
  simpl. apply not_elem_of_empty.
Defined.
